(** * png-font: glyph lookup, text measurement, word wrapping and compositing

    A shallow embedding of [src/js/pngfont.js] (the [png_font] object) and
    the properties of its layout pipeline.

    Conventions of the embedding.
    - A JavaScript string is the list of its UTF-16 code units, each a [Z]
      in [[0, 65536)] ([wf_string]).
    - JavaScript numbers are modelled by [Z]: every numeric argument (scale,
      box sizes, atlas geometry) is taken to be an integer, and all values
      stay far below 2^53, where double arithmetic is exact.
    - [undefined] and [null] are kept apart where the source tells them
      apart ([jsval]), and merged into [None] where it treats them alike.
    - A canvas is its size and the list of drawing commands issued on it, in
      the order they were issued; the pixels are the host's business. *)

From stdpp Require Import base numbers option list strings.

Local Open Scope Z_scope.

(** ** JavaScript strings *)

Module JS.

Definition jsstring := list Z.

Definition wf_string (s : jsstring) : Prop :=
  Forall (λ u, 0 ≤ u < 65536) s.

(** The code units of a Rocq string literal (one per character). *)
Definition units (s : string) : jsstring :=
  map (λ c, Z.of_N (Ascii.N_of_ascii c)) (String.list_ascii_of_string s).

Definition is_high_surrogate (u : Z) : bool := (55296 <=? u) && (u <=? 56319).
Definition is_low_surrogate (u : Z) : bool := (56320 <=? u) && (u <=? 57343).

(** An element produced by the string iterator: a one-unit string, or a
    two-unit string holding a surrogate pair. *)
Inductive chunk :=
| One (u : Z)
| Two (hi lo : Z).

(** [Array.from(str)]: the string iterator walks the string by code point;
    a high surrogate directly followed by a low surrogate is one element,
    every other unit (lone surrogates too) is an element of its own. *)
Fixpoint array_from (s : jsstring) : list chunk :=
  match s with
  | [] => []
  | u :: rest =>
      match rest with
      | v :: rest' =>
          if is_high_surrogate u && is_low_surrogate v
          then Two u v :: array_from rest'
          else One u :: array_from rest
      | [] => [One u]
      end
  end.

(** [c.charCodeAt(0)]: the first code unit. *)
Definition charCodeAt0 (c : chunk) : Z :=
  match c with
  | One u => u
  | Two hi _ => hi
  end.

(** [c.codePointAt(0)]: the code point that starts at the first unit. *)
Definition codePointAt0 (c : chunk) : Z :=
  match c with
  | One u => u
  | Two hi lo => 65536 + (hi - 55296) * 1024 + (lo - 56320)
  end.

(** [String.fromCharCode.apply(null, codes)]: every argument is truncated
    to 16 bits and becomes one code unit. This is the string the call
    returns when it returns; past the host's limit on the number of
    arguments of a call it throws a RangeError instead, which
    [wrapText_host] accounts for. *)
Definition fromCharCode (codes : list Z) : jsstring :=
  map (λ c, c `mod` 65536) codes.

(** [s.substring(n)] for [n >= 0]. *)
Definition substring (n : nat) (s : jsstring) : jsstring := drop n s.

(** [s.indexOf(chr)] for a one-unit string [chr]: the first position, or -1. *)
Fixpoint indexOf_from (s : jsstring) (u : Z) (i : Z) : Z :=
  match s with
  | [] => -1
  | v :: s' => if v =? u then i else indexOf_from s' u (i + 1)
  end.

Definition indexOf (s : jsstring) (u : Z) : Z := indexOf_from s u 0.

(** No high surrogate is directly followed by a low surrogate: every code
    point of the string is in the Basic Multilingual Plane (or is a lone
    surrogate) and takes one code unit. *)
Fixpoint no_surrogate_pair (s : jsstring) : bool :=
  match s with
  | [] => true
  | u :: rest =>
      match rest with
      | v :: _ =>
          negb (is_high_surrogate u && is_low_surrogate v) && no_surrogate_pair rest
      | [] => true
      end
  end.

(** The values the source passes around where a colour or a flag is
    expected. *)
Inductive jsval :=
| JUndefined
| JNull
| JBool (b : bool)
| JStr (s : string).

(** ToBoolean. *)
Definition truthy (v : jsval) : bool :=
  match v with
  | JUndefined | JNull => false
  | JBool b => b
  | JStr s => negb (String.eqb s "")
  end.

Definition typeof_is_undefined (v : jsval) : bool :=
  match v with JUndefined => true | _ => false end.

Definition is_null (v : jsval) : bool :=
  match v with JNull => true | _ => false end.

End JS.

Import JS.

(** ** Canvases *)

(** A canvas with its 2D context: the size, the [imageSmoothingEnabled]
    flag and the drawing commands issued so far, oldest first. The font
    image is the only image that is not a canvas. *)
Inductive Canvas :=
| mkCanvas (w h : Z) (smoothing : bool) (ops : list DrawOp)
with DrawOp :=
(** [ctx.drawImage(fontImage, sx, sy, sw, sh, dx, dy, dw, dh)] *)
| DrawGlyph (sx sy sw sh dx dy dw dh : Z)
(** [ctx.fillStyle = color] *)
| SetFillStyle (color : jsval)
(** [ctx.globalCompositeOperation = 'source-in'] *)
| SetCompositeSourceIn
(** [ctx.fillRect(x, y, w, h)] *)
| FillRect (x y w h : Z)
(** [ctx.drawImage(canvas, dx, dy)] *)
| DrawCanvas (src : Canvas) (dx dy : Z)
(** [ctx.drawImage(canvas, dx, dy, dw, dh)] *)
| DrawCanvasScaled (src : Canvas) (dx dy dw dh : Z)
(** an assignment to [canvas.width] or [canvas.height] clears the bitmap *)
| ClearBitmap.

Definition canvas_width (c : Canvas) : Z := let 'mkCanvas w _ _ _ := c in w.
Definition canvas_height (c : Canvas) : Z := let 'mkCanvas _ h _ _ := c in h.
Definition canvas_smoothing (c : Canvas) : bool := let 'mkCanvas _ _ s _ := c in s.
Definition canvas_ops (c : Canvas) : list DrawOp := let 'mkCanvas _ _ _ o := c in o.

(** Issue one command on a canvas. *)
Definition draw (c : Canvas) (op : DrawOp) : Canvas :=
  mkCanvas (canvas_width c) (canvas_height c) (canvas_smoothing c)
           (canvas_ops c ++ [op]).

(** [canvas.width = v] and [canvas.height = v]; [None] is NaN (a sum with
    [undefined]), which the canvas stores as 0. *)
Definition set_canvas_width (c : Canvas) (v : option Z) : Canvas :=
  mkCanvas (default 0 v) (canvas_height c) (canvas_smoothing c)
           (canvas_ops c ++ [ClearBitmap]).

Definition set_canvas_height (c : Canvas) (v : option Z) : Canvas :=
  mkCanvas (canvas_width c) (default 0 v) (canvas_smoothing c)
           (canvas_ops c ++ [ClearBitmap]).

(** Where a command copies a canvas to, if it is such a command. *)
Definition blit_position (op : DrawOp) : option (Z * Z) :=
  match op with
  | DrawCanvas _ dx dy => Some (dx, dy)
  | _ => None
  end.

(** ** The engine's configuration ([png_font]'s atlas fields) *)

Record Atlas := {
  charWidth : Z;
  charHeight : Z;
  ANSICharWidth : Z;
  charsInRow : Z;
  (** the glyph table, a string; [None] is [undefined] or [null] *)
  charMap : option jsstring
}.

(** The field values of the object literal, before [setup] runs. *)
Definition png_font_literal : Atlas :=
  {| charWidth := 8; charHeight := 8; ANSICharWidth := 8; charsInRow := 256;
     charMap := None |}.

(** [setup(ctx, url, cb)] with all optional parameters left out. *)
Definition setup_defaults : Atlas :=
  {| charWidth := 16; charHeight := 16; ANSICharWidth := 8; charsInRow := 256;
     charMap := None |}.

(** [setup(ctx, url, cb, 8, 8, 8)]: an atlas of 8 by 8 cells. *)
Definition atlas_8x8 : Atlas :=
  {| charWidth := 8; charHeight := 8; ANSICharWidth := 8; charsInRow := 256;
     charMap := None |}.

(** [setup(ctx, url, cb, 16, 8, 16, 2, "ABC")]: an explicit glyph table. *)
Definition atlas_abc : Atlas :=
  {| charWidth := 16; charHeight := 16; ANSICharWidth := 8; charsInRow := 2;
     charMap := Some (units "ABC") |}.

Section Engine.

Context (a : Atlas).

(** *** toCharCodeArray *)

Definition toCharCodeArray (str : jsstring) : list Z :=
  map charCodeAt0 (array_from str).

(** What the data model asks of the decoded sequence: the scalar value of
    every code point of the string. *)
Definition spec_codepoints (str : jsstring) : list Z :=
  map codePointAt0 (array_from str).

(** *** getCharWidthFromCharCode, getTextWidth, getHeight *)

Definition getCharWidthFromCharCode (chr : Z) : Z :=
  if chr <? 32 * 256 then ANSICharWidth a else charWidth a.

(** [size] is [None] when the argument is left out. *)
Definition getTextWidth (text : jsstring) (size : option Z) : Z :=
  let size := default 1 size in
  let textWidth :=
    fold_left (λ w c, w + getCharWidthFromCharCode c) (toCharCodeArray text) 0 in
  textWidth * size.

Definition getHeight (size : Z) : Z := size * charHeight a.

(** *** getCharPosition *)

(** [if (this.charMap)]: a string is truthy unless it is empty. *)
Definition charMap_configured : bool :=
  match charMap a with
  | Some (_ :: _) => true
  | _ => false
  end.

(** [%] is the truncating remainder ([Z.rem]); [Math.floor(index / n)] is
    [Z.div]; [Math.floor] of the integer product is the product. *)
Definition getCharPosition (charCode : Z) : Z * Z :=
  let chr := charCode `mod` 65536 in
  let index :=
    if charMap_configured
    then indexOf (default [] (charMap a)) chr
    else charCode in
  if index =? -1 then (0, 0)
  else (charWidth a * (index `rem` charsInRow a),
        charHeight a * (index `div` charsInRow a)).

(** *** getWrapFromText *)

(** [text.split(/\r|\r\n|\n/)]: the alternation tries a lone carriage
    return first, so the middle alternative never matches and every
    carriage return and every line feed is a separator of its own. *)
Fixpoint split_lines (s : jsstring) (cur : jsstring) : list jsstring :=
  match s with
  | [] => [cur]
  | u :: s' =>
      if (u =? 13) || (u =? 10) then cur :: split_lines s' []
      else split_lines s' (cur ++ [u])
  end.

Record WrapBox := { wrap0 : Z; wrap1 : Z; wrap2 : Z }.

Definition getWrapFromText (text : jsstring) (size : Z) (pos : Z * Z) : WrapBox :=
  let lines := split_lines text [] in
  let linesCount := Z.of_nat (length lines) in
  let longestLine :=
    fold_left (λ m l, if Z.of_nat (length l) >? m then Z.of_nat (length l) else m)
              lines 0 in
  {| wrap0 := longestLine * size * charWidth a + fst pos;
     wrap1 := linesCount * size * charWidth a + snd pos;
     wrap2 := 0 |}.

(** *** wrapText *)

(** The two fields of [png_font] that [wrapText] reads and writes.
    [textDrawn] starts as an empty array, which is [!==] to every string:
    that initial value is [None]. *)
Record Memo := {
  textDrawn : option jsstring;
  textUTF8Array : list Z
}.

Definition memo_initial : Memo := {| textDrawn := None; textUTF8Array := [] |}.

(** [wrapText] returns a two-element array on the early exits and a
    four-element array when the loop runs to its end. *)
Inductive WrapResult :=
| Truncated (lines : list (list Z)) (missing : jsstring)
| Complete (lines : list (list Z)) (missing : jsstring) (maxWidth usedHeight : Z).

Definition result_lines (r : WrapResult) : list (list Z) :=
  match r with Truncated l _ | Complete l _ _ _ => l end.

Definition result_missing (r : WrapResult) : jsstring :=
  match r with Truncated _ m | Complete _ m _ _ => m end.

(** The third and fourth elements, [undefined] ([None]) on an early exit. *)
Definition result_minWidth (r : WrapResult) : option Z :=
  match r with Truncated _ _ => None | Complete _ _ w _ => Some w end.

Definition result_minHeight (r : WrapResult) : option Z :=
  match r with Truncated _ _ => None | Complete _ _ _ h => Some h end.

(** The local function [missingText]. *)
Definition missingText (text : jsstring) (utf82DArray : list (list Z)) : jsstring :=
  let flatUtf8Array := fold_left (λ flat l, flat ++ l) utf82DArray [] in
  let doneText := fromCharCode flatUtf8Array in
  substring (length doneText) text.

(** The local variables of [wrapText] that live across loop iterations. *)
Record WrapState := {
  wrapped2DArray : list (list Z);
  width : Z;
  line : nat;
  word : list Z;
  wordWidth : Z;
  maxWidth : Z
}.

(** [arr[i] = v]: replaces an element, or appends at [i = arr.length].
    A store further out would leave holes in the array; the model has no
    holes and gives [None] there. *)
Definition array_store {A} (arr : list A) (i : nat) (v : A) : option (list A) :=
  if decide (i < length arr)%nat then Some (<[i := v]> arr)
  else if decide (i = length arr) then Some (arr ++ [v])
  else None.

(** [arr[i] = arr[i].concat(word).concat([32])]; reading an absent element
    gives [undefined], on which [.concat] throws a TypeError ([None]). *)
Definition place_word (arr : list (list Z)) (i : nat) (word : list Z)
  : option (list (list Z)) :=
  l ← arr !! i;
  array_store arr i (l ++ word ++ [32]).

(** The line-advance block: [wrapped2DArray.push([]); ...;
    wrapped2DArray[line] = []]. *)
Definition advance_line (arr : list (list Z)) (line1 : nat)
  : option (list (list Z)) :=
  array_store (arr ++ [[]]) line1 [].

Inductive Step :=
| Return (r : WrapResult)
| Continue (st : WrapState).

Section Wrap.

Context (text : jsstring) (wrap : WrapBox) (size : Z).

Definition spaceWidth : Z := 8 * size.

(** The loop test: [textUTF8Array[i] !== 32 && i !== length &&
    textUTF8Array[i] !== 10]. The element read at [i = length] is
    [undefined], here [None]. *)
Definition is_word_char (c : option Z) : bool :=
  match c with
  | Some c => negb (c =? 32) && negb (c =? 10)
  | None => false
  end.

Definition is_linefeed (c : option Z) : bool :=
  match c with
  | Some c => c =? 10
  | None => false
  end.

(** The branch for a character of a word. *)
Definition word_char (c : Z) (st : WrapState) : WrapState :=
  {| wrapped2DArray := wrapped2DArray st;
     width := width st;
     line := line st;
     word := word st ++ [c];
     wordWidth := wordWidth st + getCharWidthFromCharCode c * size;
     maxWidth := maxWidth st |}.

(** The branch for a space, a line feed or the end of the text. *)
Definition delimiter (c : option Z) (st : WrapState) : option Step :=
  if width st + wordWidth st <? wrap0 wrap then
    arr ← place_word (wrapped2DArray st) (line st) (word st);
    let width1 := width st + wordWidth st + spaceWidth in
    if is_linefeed c then
      let line1 := S (line st) in
      if Z.of_nat line1 * 16 * size >=? wrap1 wrap then
        Some (Return (Truncated arr (missingText text arr)))
      else
        arr ← advance_line arr line1;
        Some (Continue {| wrapped2DArray := arr;
                          width := wordWidth st + spaceWidth;
                          line := line1;
                          word := [];
                          wordWidth := 0;
                          maxWidth := maxWidth st |})
    else
      Some (Continue {| wrapped2DArray := arr;
                        width := width1;
                        line := line st;
                        word := [];
                        wordWidth := 0;
                        maxWidth := maxWidth st |})
  else
    let line1 := S (line st) in
    if (Z.of_nat line1 + 1) * charWidth a * size >=? wrap1 wrap then
      Some (Return (Truncated (wrapped2DArray st)
                              (missingText text (wrapped2DArray st))))
    else
      arr ← advance_line (wrapped2DArray st) line1;
      arr ← place_word arr line1 (word st);
      Some (Continue {| wrapped2DArray := arr;
                        width := wordWidth st + spaceWidth;
                        line := line1;
                        word := [];
                        wordWidth := 0;
                        maxWidth := maxWidth st |}).

(** The statement that closes every iteration:
    [if (width > maxWidth) maxWidth = width]. *)
Definition store_maxWidth (st : WrapState) : WrapState :=
  {| wrapped2DArray := wrapped2DArray st;
     width := width st;
     line := line st;
     word := word st;
     wordWidth := wordWidth st;
     maxWidth := if width st >? maxWidth st then width st else maxWidth st |}.

(** One iteration of the [for] loop on the element [c]. *)
Definition iteration (c : option Z) (st : WrapState) : option Step :=
  s ← match c with
      | Some c' =>
          if is_word_char c then Some (Continue (word_char c' st))
          else delimiter c st
      | None => delimiter c st
      end;
  match s with
  | Return r => Some (Return r)
  | Continue st' => Some (Continue (store_maxWidth st'))
  end.

(** The [for] loop over [i = 0 .. length], on the elements not yet visited;
    the last iteration, at [i = length], reads [undefined]. *)
Fixpoint loop (rest : list Z) (st : WrapState) : option WrapResult :=
  match rest with
  | c :: rest' =>
      s ← iteration (Some c) st;
      match s with
      | Return r => Some r
      | Continue st' => loop rest' st'
      end
  | [] =>
      s ← iteration None st;
      match s with
      | Return r => Some r
      | Continue st' =>
          Some (Complete (wrapped2DArray st') [] (maxWidth st')
                         (Z.of_nat (line st' + 1) * getHeight size))
      end
  end.

(** The state at the loop's entry; [wrapped2DArray[line] = []] stores into
    the empty array. *)
Definition loop_entry : option WrapState :=
  arr ← array_store [] 0%nat [];
  Some {| wrapped2DArray := arr; width := 0; line := 0; word := [];
          wordWidth := 0; maxWidth := 0 |}.

(** [wrapText(text, wrap, size)] on the memo [m]: the result ([None] for a
    thrown TypeError) and the memo it leaves behind. *)
Definition wrapText (m : Memo) : option WrapResult * Memo :=
  let m' :=
    if decide (textDrawn m ≠ Some text)
    then {| textDrawn := Some text; textUTF8Array := toCharCodeArray text |}
    else m in
  (st ← loop_entry; loop (textUTF8Array m') st, m').

End Wrap.

(** *** drawChr, createBufferCanvas *)

Definition drawChr (ctx : Canvas) (chr : Z) (pos : Z * Z) : Canvas * Z :=
  let '(xchar, ychar) := getCharPosition chr in
  let charWidth_ := getCharWidthFromCharCode chr in
  (draw ctx (DrawGlyph xchar ychar (charWidth a) (charHeight a)
                       (fst pos) (snd pos) (charWidth a) (charHeight a)),
   charWidth_).

Definition createBufferCanvas (width height : Z) : Canvas :=
  mkCanvas width height false [].

(** *** drawTextCanvas *)

(** One pass of the glyph loop on the buffer's context, the pen
    [chrPos[0]] and [charTotalWidth]. *)
Definition glyph_step (acc : Canvas * Z * Z) (char : Z) : Canvas * Z * Z :=
  let '(bx, chrPos0, charTotalWidth) := acc in
  let '(bx, charWidth_) := drawChr bx char (chrPos0, 0) in
  (bx, chrPos0 + charWidth_, charTotalWidth + charWidth_).

Definition draw_glyphs (bx : Canvas) (utf8Array : list Z) : Canvas * Z * Z :=
  fold_left glyph_step utf8Array (bx, 0, 0).

(** The guard of the tint step:
    [typeof color !== 'undefined' || color !== null]. *)
Definition tint_guard (color : jsval) : bool :=
  negb (typeof_is_undefined color) || negb (is_null color).

(** The line buffer as it is when the tint step is over. *)
Definition tinted_buffer (utf8Array : list Z) (color : jsval) : Canvas * Z :=
  let width_ := charWidth a * Z.of_nat (length utf8Array) in
  let height := charHeight a in
  let buffer := createBufferCanvas width_ height in
  let '(bx, _, charTotalWidth) := draw_glyphs buffer utf8Array in
  let bx :=
    if tint_guard color then
      draw (draw (draw bx (SetFillStyle color)) SetCompositeSourceIn)
           (FillRect 0 0 width_ height)
    else bx in
  (bx, charTotalWidth).

(** The canvas that [drawTextCanvas] copies to its target: the line buffer,
    or the intermediate buffer holding its upscaled copy. [size] is [None]
    for [undefined] and [null]. *)
Definition line_image (utf8Array : list Z) (color : jsval) (size : option Z)
  : Canvas :=
  let width_ := charWidth a * Z.of_nat (length utf8Array) in
  let height := charHeight a in
  let buffer := fst (tinted_buffer utf8Array color) in
  match size with
  | None => buffer
  | Some size =>
      if size =? 1 then buffer
      else
        let bufferSize := createBufferCanvas (width_ * size) (height * size) in
        draw bufferSize
             (DrawCanvasScaled buffer 0 0 (width_ * size) (height * size))
  end.

Definition drawTextCanvas (ctx : Canvas) (utf8Array : list Z) (pos : Z * Z)
    (color : jsval) (size : option Z) : Canvas * Z :=
  let charTotalWidth := snd (tinted_buffer utf8Array color) in
  (draw ctx (DrawCanvas (line_image utf8Array color size) (fst pos) (snd pos)),
   charTotalWidth).

(** *** drawTextShadow *)

Definition drawTextShadow (utf8Array : list Z) (color : jsval)
    (size : option Z) (shadowcolor : jsval) : Canvas * Z :=
  let size := default 1 size in
  let width_ := charWidth a * Z.of_nat (length utf8Array) * size in
  let height := charHeight a * size in
  let buffer := createBufferCanvas (width_ + 1) (height + 1) in
  let '(bx, _) := drawTextCanvas buffer utf8Array (size, size) shadowcolor (Some size) in
  let '(bx, charTotalWidth) := drawTextCanvas bx utf8Array (0, 0) color (Some size) in
  (bx, charTotalWidth + size).

(** *** drawText *)

(** The [wrap] argument: left out ([undefined] or [null]), the string
    ['nowrap'] or a falsy value, or a box. *)
Inductive WrapArg :=
| WrapAbsent
| WrapNoWrap
| WrapGiven (box : WrapBox).

(** The loop over the wrapped lines, from index [i] on. *)
Fixpoint draw_lines (ctx : Canvas) (pos : Z * Z) (color : jsval) (size : Z)
    (shadow : jsval) (i : nat) (lines : list (list Z)) : Canvas :=
  match lines with
  | [] => ctx
  | textUTF8Array_ :: lines' =>
      let ctx :=
        if negb (truthy shadow) then
          fst (drawTextCanvas ctx textUTF8Array_
                 (fst pos, snd pos + Z.of_nat i * 16 * size) color (Some size))
        else
          let buffer := fst (drawTextShadow textUTF8Array_ color (Some size) shadow) in
          draw ctx (DrawCanvas buffer (fst pos) (snd pos + Z.of_nat i * getHeight size)) in
      draw_lines ctx pos color size shadow (S i) lines'
  end.

(** The [tightenCanvas] block. The assignments to [ctx.width] and
    [ctx.height] create properties on the context that nothing reads; the
    model leaves them out. *)
Definition tighten (ctx : Canvas) (size : Z) (shadow : jsval)
    (minWidth minHeight : option Z) : Canvas :=
  if truthy shadow then
    set_canvas_height
      (set_canvas_width ctx ((λ w, w + size * 2) <$> minWidth))
      ((λ h, h + size * 2) <$> minHeight)
  else
    set_canvas_height (set_canvas_width ctx minWidth) minHeight.

(** [drawText] on the engine's memo and its canvas context [this.ctx]:
    the returned [missing], and the memo and the canvas afterwards; [None]
    when [wrapText] throws. *)
Definition drawText (m : Memo) (ctx : Canvas) (text : jsstring) (pos : Z * Z)
    (color : jsval) (size : option Z) (shadow : jsval) (wrap : WrapArg)
    (tightenCanvas : jsval) : option (jsstring * Memo * Canvas) :=
  let size := default 1 size in
  let shadow :=
    if typeof_is_undefined shadow || is_null shadow then JBool false else shadow in
  let wrap :=
    match wrap with
    | WrapAbsent =>
        {| wrap0 := canvas_width ctx - fst pos;
           wrap1 := canvas_height ctx - snd pos;
           wrap2 := 0 |}
    | WrapNoWrap => getWrapFromText text size pos
    | WrapGiven box => box
    end in
  let tightenCanvas :=
    if typeof_is_undefined tightenCanvas || is_null tightenCanvas
    then JBool false else tightenCanvas in
  let '(r, m) := wrapText text wrap size m in
  r ← r;
  let ctx :=
    if truthy tightenCanvas
    then tighten ctx size shadow (result_minWidth r) (result_minHeight r)
    else ctx in
  let ctx := draw_lines ctx pos color size shadow 0 (result_lines r) in
  Some (result_missing r, m, ctx).

End Engine.

(** ** Notions used by the statements *)

(** The index [line] is the index of the last line. *)
Definition wf_state (st : WrapState) : Prop :=
  length (wrapped2DArray st) = S (line st).

(** The memo holds the decoding of the text it names. *)
Definition memo_ok (m : Memo) : Prop :=
  ∀ t, textDrawn m = Some t → textUTF8Array m = toCharCodeArray t.


(** The word-wrapper writes a space where the text has a line feed. *)
Definition lf_to_space (u : Z) : Z := if u =? 10 then 32 else u.

(** What an early exit must give: the placed codes, decoded, are a prefix
    of the text with its line feeds shown as spaces, and [missing] is the
    rest of the text. *)
Definition covers (text : jsstring) (r : WrapResult) : Prop :=
  match r with
  | Truncated lines missing =>
      ∃ n : nat, (n ≤ length text)%nat ∧
                 fromCharCode (concat lines) = map lf_to_space (take n text) ∧
                 missing = drop n text
  | Complete _ _ _ _ => True
  end.

(** The loop invariant behind it: the lines hold the text before the
    current word, [rest] being the codes not yet visited. *)
Definition placed (text : jsstring) (rest : list Z) (st : WrapState) : Prop :=
  ∃ pre, text = pre ++ word st ++ rest ∧
         concat (wrapped2DArray st) = map lf_to_space pre ∧
         Forall (λ c, c ≠ 10) (word st).

(** Line 0 holds something. *)
Definition first_line_used (lines : list (list Z)) : Prop :=
  ∃ l ls, lines = l :: ls ∧ l ≠ [].

(** The codes before the first space or line feed. *)
Fixpoint first_word (codes : list Z) : list Z :=
  match codes with
  | c :: rest => if is_word_char (Some c) then c :: first_word rest else []
  | [] => []
  end.

(** The width the loop accumulates for a word. *)
Definition word_width (a : Atlas) (size : Z) (w : list Z) : Z :=
  fold_left (λ acc c, acc + getCharWidthFromCharCode a c * size) w 0.

(** The first code unit of the UTF-16 encoding of a scalar value: the value
    itself in the Basic Multilingual Plane, the high surrogate above it. *)
Definition leading_unit (p : Z) : Z :=
  if p <? 65536 then p else 55296 + (p - 65536) `div` 1024.

(** The width of a line of codes at scale 1, as [getTextWidth] and the
    glyph loop of [drawTextCanvas] add it up. *)
Definition line_width (a : Atlas) (codes : list Z) : Z :=
  fold_left (λ w c, w + getCharWidthFromCharCode a c) codes 0.

Definition is_glyph_op (op : DrawOp) : bool :=
  match op with
  | DrawGlyph _ _ _ _ _ _ _ _ => true
  | _ => false
  end.


(** A sample call of [drawText]: two lines, a shadow, 8 by 8 cells. *)
Definition two_lines_with_shadow : option (jsstring * Memo * Canvas) :=
  drawText atlas_8x8 memo_initial (mkCanvas 100 100 true []) [97; 10; 98] (0, 0)
           (JStr "black") (Some 1) (JStr "red")
           (WrapGiven {| wrap0 := 1000; wrap1 := 1000; wrap2 := 0 |}) JUndefined.

(** The state in which the loop is entered. *)
Definition entry_state : WrapState :=
  {| wrapped2DArray := [[]]; width := 0; line := 0; word := [];
     wordWidth := 0; maxWidth := 0 |}.

(** A call of [wrapText], and the memo after a sequence of calls. *)
Record WrapCall := { call_text : jsstring; call_wrap : WrapBox; call_size : Z }.

Definition run_calls (a : Atlas) (calls : list WrapCall) (m : Memo) : Memo :=
  fold_left (λ m c, snd (wrapText a (call_text c) (call_wrap c) (call_size c) m))
            calls m.

Section IterationCases.

Context (a : Atlas) (text : jsstring) (wrap : WrapBox) (size : Z).

(** The six ways through one iteration of the loop, on a state whose
    current line is the last one: the outcome for each. *)
Inductive iter_rel (c : option Z) (st : WrapState) : Step → Prop :=
| IterWord c' :
    c = Some c' → c' ≠ 32 → c' ≠ 10 →
    iter_rel c st (Continue (store_maxWidth (word_char a size c' st)))
| IterFitsFeedStop init l :
    wrapped2DArray st = init ++ [l] →
    c = Some 10 →
    width st + wordWidth st < wrap0 wrap →
    wrap1 wrap ≤ Z.of_nat (S (line st)) * 16 * size →
    iter_rel c st
      (Return (Truncated (init ++ [l ++ word st ++ [32]])
                         (missingText text (init ++ [l ++ word st ++ [32]]))))
| IterFitsFeedNext init l :
    wrapped2DArray st = init ++ [l] →
    c = Some 10 →
    width st + wordWidth st < wrap0 wrap →
    Z.of_nat (S (line st)) * 16 * size < wrap1 wrap →
    iter_rel c st
      (Continue (store_maxWidth
         {| wrapped2DArray := (init ++ [l ++ word st ++ [32]]) ++ [[]];
            width := wordWidth st + spaceWidth size;
            line := S (line st);
            word := [];
            wordWidth := 0;
            maxWidth := maxWidth st |}))
| IterFitsPlain init l :
    wrapped2DArray st = init ++ [l] →
    c = Some 32 ∨ c = None →
    width st + wordWidth st < wrap0 wrap →
    iter_rel c st
      (Continue (store_maxWidth
         {| wrapped2DArray := init ++ [l ++ word st ++ [32]];
            width := width st + wordWidth st + spaceWidth size;
            line := line st;
            word := [];
            wordWidth := 0;
            maxWidth := maxWidth st |}))
| IterOverflowStop :
    is_word_char c = false →
    wrap0 wrap ≤ width st + wordWidth st →
    wrap1 wrap ≤ (Z.of_nat (S (line st)) + 1) * charWidth a * size →
    iter_rel c st
      (Return (Truncated (wrapped2DArray st)
                         (missingText text (wrapped2DArray st))))
| IterOverflowNext :
    is_word_char c = false →
    wrap0 wrap ≤ width st + wordWidth st →
    (Z.of_nat (S (line st)) + 1) * charWidth a * size < wrap1 wrap →
    iter_rel c st
      (Continue (store_maxWidth
         {| wrapped2DArray := wrapped2DArray st ++ [word st ++ [32]];
            width := wordWidth st + spaceWidth size;
            line := S (line st);
            word := [];
            wordWidth := 0;
            maxWidth := maxWidth st |})).

End IterationCases.

(** ** Notions used by the further statements *)

(** A wrapped line holds no line feed and, unless it is empty, ends with the
    space that closes its last word. *)
Definition line_ok (l : list Z) : Prop :=
  (10 ∉ l) ∧ (l = [] ∨ last l = Some 32).

(** What the loop adds to the width of the current line for one code: the
    fixed space width for a space, the glyph width otherwise. *)
Definition advance (a : Atlas) (size : Z) (c : Z) : Z :=
  if c =? 32 then spaceWidth size else getCharWidthFromCharCode a c * size.

Definition run_width (a : Atlas) (size : Z) (codes : list Z) : Z :=
  fold_right (λ c w, advance a size c + w) 0 codes.

(** The height invariant of the loop: the current line is line 0, or one of
    the two height checks let it be opened. *)
Definition line_opened (a : Atlas) (wrap : WrapBox) (size : Z) (n : nat) : Prop :=
  n = 1%nat ∨
  Z.of_nat (n - 1) * 16 * size < wrap1 wrap ∨
  Z.of_nat n * charWidth a * size < wrap1 wrap.

(** The carriage returns and line feeds of a string. *)
Definition is_separator (u : Z) : bool := (u =? 13) || (u =? 10).

Fixpoint separators (s : jsstring) : nat :=
  match s with
  | [] => 0
  | u :: s' => if is_separator u then S (separators s') else separators s'
  end.

(** [lines.join("\n")] *)
Fixpoint join_lf (lines : list jsstring) : jsstring :=
  match lines with
  | [] => []
  | [l] => l
  | l :: lines' => l ++ [10] ++ join_lf lines'
  end.

(** The box [drawText] hands to [wrapText]: its local [wrap] once the
    defaults are resolved. *)
Definition drawText_box (a : Atlas) (ctx : Canvas) (text : jsstring)
    (pos : Z * Z) (size : option Z) (wrap : WrapArg) : WrapBox :=
  match wrap with
  | WrapAbsent =>
      {| wrap0 := canvas_width ctx - fst pos;
         wrap1 := canvas_height ctx - snd pos;
         wrap2 := 0 |}
  | WrapNoWrap => getWrapFromText a text (default 1 size) pos
  | WrapGiven box => box
  end.

(** The sample call of [two_lines_with_shadow], without the shadow. *)
Definition two_lines_without_shadow : option (jsstring * Memo * Canvas) :=
  drawText atlas_8x8 memo_initial (mkCanvas 100 100 true []) [97; 10; 98] (0, 0)
           (JStr "black") (Some 1) JUndefined
           (WrapGiven {| wrap0 := 1000; wrap1 := 1000; wrap2 := 0 |}) JUndefined.

(** [wrapText] on a host whose calls take at most [limit] arguments. On an
    early exit [missingText] calls
    [String.fromCharCode.apply(null, flatUtf8Array)] with one argument per
    placed code; past the limit that call throws a RangeError, and so does
    [wrapText] ([None]). The other throw is the TypeError of [wrapText]
    itself. *)
Definition wrapText_host (a : Atlas) (limit : nat) (text : jsstring)
    (wrap : WrapBox) (size : Z) (m : Memo) : option WrapResult :=
  r ← fst (wrapText a text wrap size m);
  match r with
  | Truncated lines _ =>
      let flatUtf8Array := fold_left (λ flat l, flat ++ l) lines [] in
      if decide (length flatUtf8Array ≤ limit)%nat then Some r else None
  | Complete _ _ _ _ => Some r
  end.

(** * Properties *)

(** ** Decoding a string *)

Section Decoding.

Lemma toCharCodeArray_length (str : jsstring) :
  length (toCharCodeArray str) = length (array_from str).
Proof. unfold toCharCodeArray. by rewrite length_map. Qed.

Lemma spec_codepoints_length (str : jsstring) :
  length (spec_codepoints str) = length (array_from str).
Proof. unfold spec_codepoints. by rewrite length_map. Qed.

Lemma array_from_bmp (str : jsstring) :
  no_surrogate_pair str = true → array_from str = map One str.
Proof.
  induction str as [|u rest IH]; intros Hstr; [reflexivity|].
  destruct rest as [|v rest']; [reflexivity|].
  apply andb_prop in Hstr as [Hpair Hrest].
  change (array_from (u :: v :: rest')) with
    (if is_high_surrogate u && is_low_surrogate v
     then Two u v :: array_from rest' else One u :: array_from (v :: rest')).
  destruct (is_high_surrogate u && is_low_surrogate v); [done|].
  rewrite IH by done. done.
Qed.

(** On a string without surrogate pairs the decoded sequence is the string's
    own sequence of code units, and these are its code points. *)
Lemma toCharCodeArray_bmp (str : jsstring) :
  no_surrogate_pair str = true → toCharCodeArray str = str.
Proof.
  intros Hstr. unfold toCharCodeArray. rewrite array_from_bmp by done.
  rewrite map_map. cbn. apply map_id.
Qed.

Lemma spec_codepoints_bmp (str : jsstring) :
  no_surrogate_pair str = true → spec_codepoints str = str.
Proof.
  intros Hstr. unfold spec_codepoints. rewrite array_from_bmp by done.
  rewrite map_map. cbn. apply map_id.
Qed.

Lemma leading_unit_one (u : Z) :
  0 ≤ u < 65536 → charCodeAt0 (One u) = leading_unit (codePointAt0 (One u)).
Proof.
  intros Hu. cbn. unfold leading_unit. destruct (Z.ltb_spec u 65536); [done|lia].
Qed.

Lemma leading_unit_two (hi lo : Z) :
  is_high_surrogate hi = true → is_low_surrogate lo = true →
  charCodeAt0 (Two hi lo) = leading_unit (codePointAt0 (Two hi lo)).
Proof.
  unfold is_high_surrogate, is_low_surrogate. intros Hhi Hlo.
  cbn. unfold leading_unit.
  destruct (Z.ltb_spec (65536 + (hi - 55296) * 1024 + (lo - 56320)) 65536); [lia|].
  replace (65536 + (hi - 55296) * 1024 + (lo - 56320) - 65536)
    with ((lo - 56320) + (hi - 55296) * 1024) by lia.
  rewrite Z.div_add by lia. rewrite Z.div_small by lia. lia.
Qed.

(** The iterator looks one unit ahead, so the induction carries the
    statement for the string and for the string with one more unit in
    front. *)
Lemma array_from_units_cons (str : jsstring) :
  wf_string str →
  Forall (λ c, charCodeAt0 c = leading_unit (codePointAt0 c)) (array_from str) ∧
  ∀ u, 0 ≤ u < 65536 →
       Forall (λ c, charCodeAt0 c = leading_unit (codePointAt0 c))
              (array_from (u :: str)).
Proof.
  unfold wf_string. induction 1 as [|v rest Hv Hrest [IHrest IHcons]].
  - split; [constructor|]. intros u Hu. constructor; [|constructor].
    by apply leading_unit_one.
  - split; [by apply IHcons|]. intros u Hu.
    change (array_from (u :: v :: rest)) with
      (if is_high_surrogate u && is_low_surrogate v
       then Two u v :: array_from rest else One u :: array_from (v :: rest)).
    destruct (is_high_surrogate u && is_low_surrogate v) eqn:Hpair.
    + apply andb_prop in Hpair as [Hhi Hlo].
      constructor; [by apply leading_unit_two | done].
    + constructor; [by apply leading_unit_one | by apply IHcons].
Qed.

Lemma array_from_units (str : jsstring) :
  wf_string str →
  Forall (λ c, charCodeAt0 c = leading_unit (codePointAt0 c)) (array_from str).
Proof. intros Hstr. by apply array_from_units_cons. Qed.

(** C5, as the code has it: the decoded sequence has one entry per code
    point of the string, and the entry is the first UTF-16 code unit of the
    code point: its scalar value when that is below 65536, its high
    surrogate otherwise. *)
Theorem toCharCodeArray_spec (str : jsstring) :
  wf_string str →
  length (toCharCodeArray str) = length (spec_codepoints str) ∧
  toCharCodeArray str = map leading_unit (spec_codepoints str).
Proof.
  intros Hstr. split.
  - by rewrite toCharCodeArray_length, spec_codepoints_length.
  - unfold toCharCodeArray, spec_codepoints. rewrite map_map.
    apply array_from_units in Hstr.
    induction Hstr as [|c cs Hc _ IH]; [done|]. cbn. by rewrite Hc, IH.
Qed.

Lemma toCharCodeArray_spec_witness :
  length (toCharCodeArray [97; 55357; 56832; 98]) =
    length (spec_codepoints [97; 55357; 56832; 98]) ∧
  toCharCodeArray [97; 55357; 56832; 98] =
    map leading_unit (spec_codepoints [97; 55357; 56832; 98]).
Proof.
  apply toCharCodeArray_spec. unfold wf_string. repeat constructor; lia.
Defined.

(** C5 as stated fails: on the string made of the single code point
    U+1F600, stored as the surrogate pair D83D DE00, [toCharCodeArray]
    returns the high surrogate 55357 where the scalar value is 128512. *)
Lemma toCharCodeArray_surrogate_pair :
  toCharCodeArray [55357; 56832] = [55357] ∧
  spec_codepoints [55357; 56832] = [128512] ∧
  toCharCodeArray [55357; 56832] ≠ spec_codepoints [55357; 56832].
Proof. by vm_compute. Qed.

End Decoding.

(** ** Glyph positions *)

Section GlyphPosition.

Context (a : Atlas).

Lemma indexOf_from_None (s : jsstring) (u i : Z) :
  0 ≤ i → indexOf_from s u i = -1 ↔ u ∉ s.
Proof.
  revert i. induction s as [|v s IH]; intros i Hi; cbn [indexOf_from].
  - split; [intros _; apply not_elem_of_nil | done].
  - destruct (Z.eqb_spec v u) as [->|Hne].
    + split; [lia | intros Hnot; exfalso; apply Hnot; left].
    + rewrite IH by lia. rewrite not_elem_of_cons.
      split; [intros H; split; [congruence | exact H] | intros [_ H]; exact H].
Qed.

Lemma indexOf_from_Some (s : jsstring) (u i : Z) :
  0 ≤ i → u ∈ s →
  ∃ k : nat, indexOf_from s u i = i + Z.of_nat k ∧ s !! k = Some u ∧
             ∀ j : nat, (j < k)%nat → s !! j ≠ Some u.
Proof.
  revert i. induction s as [|v s IH]; intros i Hi Hin; [by apply elem_of_nil in Hin|].
  cbn [indexOf_from]. destruct (Z.eqb_spec v u) as [->|Hne].
  - exists 0%nat. split; [lia|]. split; [done|]. intros j Hj; lia.
  - apply elem_of_cons in Hin as [->|Hin]; [done|].
    destruct (IH (i + 1) ltac:(lia) Hin) as (k & Hk & Hlook & Hfirst).
    exists (S k). split; [lia|]. split; [done|].
    intros [|j] Hj; cbn; [congruence|]. apply Hfirst. lia.
Qed.

(** C8: [getCharPosition] is a total function to pairs of numbers, with no
    failing case. For a character code [code] and a positive [charsInRow]:
    with a configured [charMap] (one that passes the test [if (this.charMap)])
    that does not hold the character the result is (0,0); with a [charMap]
    that holds it, first at position [k], the result is the cell of index
    [k]; with no [charMap] configured it is the cell of index [code]. The
    cell of [index] is [(charWidth * (index mod charsInRow),
    charHeight * floor(index / charsInRow))]. *)
Theorem getCharPosition_spec (code : Z) :
  0 ≤ code < 65536 → 0 < charsInRow a →
  let cell index :=
    (charWidth a * (index `mod` charsInRow a),
     charHeight a * (index `div` charsInRow a)) in
  (∀ cm, charMap a = Some cm → charMap_configured a = true → code ∉ cm →
     getCharPosition a code = (0, 0)) ∧
  (∀ cm, charMap a = Some cm → code ∈ cm →
     ∃ k : nat, cm !! k = Some code ∧ (∀ j : nat, (j < k)%nat → cm !! j ≠ Some code) ∧
                getCharPosition a code = cell (Z.of_nat k)) ∧
  (charMap_configured a = false → getCharPosition a code = cell code).
Proof.
  intros Hcode Hrow cell. unfold getCharPosition.
  rewrite (Z.mod_small code) by lia.
  split; [|split].
  - intros cm Hcm Hconf Hnot. rewrite Hconf. unfold charMap_configured in Hconf.
    rewrite Hcm in *. destruct cm as [|v cm]; [done|]. cbn [from_option id].
    assert (indexOf (v :: cm) code = -1) as ->; [|done].
    by apply indexOf_from_None.
  - intros cm Hcm Hin. unfold charMap_configured. rewrite Hcm.
    destruct cm as [|v cm]; [by apply elem_of_nil in Hin|]. cbn [from_option id].
    destruct (indexOf_from_Some (v :: cm) code 0 ltac:(lia) Hin) as (k & Hk & Hlook & Hfirst).
    exists k. split; [done|]. split; [done|].
    unfold indexOf. rewrite Hk, Z.add_0_l.
    destruct (Z.eqb_spec (Z.of_nat k) (-1)); [lia|].
    unfold cell. by rewrite Z.rem_mod_nonneg by lia.
  - intros ->. destruct (Z.eqb_spec code (-1)); [lia|].
    unfold cell. by rewrite Z.rem_mod_nonneg by lia.
Qed.

End GlyphPosition.

Lemma getCharPosition_spec_witness :
  getCharPosition atlas_abc 90 = (0, 0) ∧
  (∃ k : nat, units "ABC" !! k = Some 66 ∧
              (∀ j : nat, (j < k)%nat → units "ABC" !! j ≠ Some 66) ∧
              getCharPosition atlas_abc 66 =
                (16 * (Z.of_nat k `mod` 2), 16 * (Z.of_nat k `div` 2))) ∧
  getCharPosition setup_defaults 300 = (16 * (300 `mod` 256), 16 * (300 `div` 256)).
Proof.
  split; [|split].
  - destruct (getCharPosition_spec atlas_abc 90) as (Hmiss & _ & _);
      [lia | cbn; lia |].
    apply (Hmiss (units "ABC")); [reflexivity | reflexivity |].
    change (units "ABC") with [65; 66; 67]. rewrite !not_elem_of_cons.
    repeat split; [lia | lia | lia | apply not_elem_of_nil].
  - destruct (getCharPosition_spec atlas_abc 66) as (_ & Hfound & _);
      [lia | cbn; lia |].
    apply (Hfound (units "ABC")); [reflexivity|].
    apply list_elem_of_further, list_elem_of_here.
  - destruct (getCharPosition_spec setup_defaults 300) as (_ & _ & Hraw);
      [lia | cbn; lia |].
    by apply Hraw.
Defined.

(** ** The loop of [wrapText] *)

Section ArrayStores.

Context {A : Type}.

Lemma array_store_last (init : list A) (l v : A) :
  array_store (init ++ [l]) (length init) v = Some (init ++ [v]).
Proof.
  unfold array_store. rewrite length_app. cbn [length].
  rewrite decide_True by lia. f_equal.
  rewrite insert_app_r_alt by lia. by rewrite Nat.sub_diag.
Qed.

End ArrayStores.

Lemma place_word_last (init : list (list Z)) (l w : list Z) (i : nat) :
  i = length init →
  place_word (init ++ [l]) i w = Some (init ++ [l ++ w ++ [32]]).
Proof.
  intros ->. unfold place_word. rewrite lookup_app_r by lia. rewrite Nat.sub_diag. cbn.
  apply array_store_last.
Qed.

Lemma advance_line_last (arr : list (list Z)) (i : nat) :
  i = length arr → advance_line arr i = Some (arr ++ [[]]).
Proof. intros ->. unfold advance_line. apply array_store_last. Qed.

Lemma wf_state_last (st : WrapState) :
  wf_state st →
  ∃ init l, wrapped2DArray st = init ++ [l] ∧ length init = line st.
Proof.
  unfold wf_state. intros Hwf.
  destruct (wrapped2DArray st) as [|x arr] using rev_ind; [done|].
  exists arr, x. split; [done|]. rewrite length_app in Hwf. cbn in Hwf. lia.
Qed.

Section Iteration.

Context (a : Atlas) (text : jsstring) (wrap : WrapBox) (size : Z).

Lemma is_word_char_false (c : option Z) :
  is_word_char c = false → c = Some 32 ∨ c = Some 10 ∨ c = None.
Proof.
  destruct c as [c|]; cbn; [|by auto].
  destruct (Z.eqb_spec c 32) as [->|]; [by auto|].
  destruct (Z.eqb_spec c 10) as [->|]; [by auto|]. done.
Qed.

Lemma iteration_word (c : Z) (st : WrapState) :
  is_word_char (Some c) = true →
  iteration a text wrap size (Some c) st =
  Some (Continue (store_maxWidth (word_char a size c st))).
Proof. intros Hc. unfold iteration. by rewrite Hc. Qed.

Lemma iteration_delimiter (c : option Z) (st : WrapState) :
  is_word_char c = false →
  iteration a text wrap size c st =
  s ← delimiter a text wrap size c st;
  match s with
  | Return r => Some (Return r)
  | Continue st' => Some (Continue (store_maxWidth st'))
  end.
Proof. intros Hc. unfold iteration. destruct c; [by rewrite Hc | done]. Qed.

(** On a well-formed state an iteration throws nothing, and its outcome is
    one of the six cases. *)
Lemma iteration_cases (c : option Z) (st : WrapState) :
  wf_state st →
  ∃ s, iteration a text wrap size c st = Some s ∧ iter_rel a text wrap size c st s.
Proof.
  intros Hwf. destruct (wf_state_last st Hwf) as (init & l & Harr & Hlen).
  destruct (is_word_char c) eqn:Hc.
  - destruct c as [c|]; [|done]. rewrite iteration_word by done. cbn in Hc.
    apply andb_prop in Hc as [H32 H10].
    apply negb_true_iff in H32, H10. apply Z.eqb_neq in H32, H10.
    eexists. split; [done|]. by eapply IterWord.
  - rewrite iteration_delimiter by done. unfold delimiter. rewrite Harr, <- Hlen.
    destruct (Z.ltb_spec (width st + wordWidth st) (wrap0 wrap)) as [Hfit|Hover].
    + rewrite place_word_last by done. cbn [mbind option_bind].
      apply is_word_char_false in Hc as [-> | [-> | ->]]; cbn [is_linefeed Z.eqb Pos.eqb].
      * eexists. split; [done|]. rewrite Hlen. eapply IterFitsPlain; eauto.
      * destruct (Z.geb_spec (Z.of_nat (S (length init)) * 16 * size) (wrap1 wrap)).
        -- eexists. split; [done|]. eapply IterFitsFeedStop; eauto; lia.
        -- rewrite advance_line_last by (rewrite length_app; cbn; lia).
           cbn [mbind option_bind].
           eexists. split; [done|]. rewrite Hlen. eapply IterFitsFeedNext; eauto; lia.
      * eexists. split; [done|]. rewrite Hlen. eapply IterFitsPlain; eauto.
    + destruct (Z.geb_spec ((Z.of_nat (S (length init)) + 1) * charWidth a * size) (wrap1 wrap)).
      * eexists. split; [done|]. rewrite <- Harr. eapply IterOverflowStop; [done|lia|lia].
      * rewrite advance_line_last by (rewrite length_app; cbn; lia).
        cbn [mbind option_bind].
        rewrite place_word_last by (rewrite length_app; cbn; lia).
        cbn [mbind option_bind].
        eexists. split; [done|]. rewrite <- Harr, Hlen. cbn [app].
        eapply IterOverflowNext; [done|lia|lia].
Qed.

End Iteration.

Section Loop.

Context (a : Atlas) (text : jsstring) (wrap : WrapBox) (size : Z).

Local Abbreviation iteration := (iteration a text wrap size).
Local Abbreviation iter_rel := (iter_rel a text wrap size).

Lemma iter_rel_wf (c : option Z) (st st' : WrapState) :
  wf_state st → iter_rel c st (Continue st') → wf_state st'.
Proof.
  unfold wf_state. intros Hwf Hrel. inversion Hrel; subst; cbn; try done.
  - rewrite !length_app. rewrite H0, length_app in Hwf. cbn in *. lia.
  - rewrite length_app. rewrite H0, length_app in Hwf. cbn in *. lia.
  - rewrite length_app. cbn. lia.
Qed.

(** The invariant rule of the loop: a property [I] of the elements still to
    visit and the state, kept by every iteration that goes on, gives [Q] of
    the result, and the loop does produce a result. *)
Lemma loop_rule (I : list Z → WrapState → Prop) (Q : WrapResult → Prop) :
  (∀ c rest st s,
     I (c :: rest) st → wf_state st → iter_rel (Some c) st s →
     match s with
     | Return r => Q r
     | Continue st' => I rest st'
     end) →
  (∀ st s,
     I [] st → wf_state st → iter_rel None st s →
     match s with
     | Return r => Q r
     | Continue st' =>
         wf_state st' →
         Q (Complete (wrapped2DArray st') [] (maxWidth st')
                     (Z.of_nat (line st' + 1) * getHeight a size))
     end) →
  ∀ rest st, wf_state st → I rest st →
            ∃ r, loop a text wrap size rest st = Some r ∧ Q r.
Proof.
  intros Hstep Hlast rest. induction rest as [|c rest IH]; intros st Hwf HI.
  - destruct (iteration_cases a text wrap size None st Hwf) as (s & Hs & Hrel).
    cbn [loop]. rewrite Hs. cbn [mbind option_bind].
    specialize (Hlast st s HI Hwf Hrel). destruct s as [r|st'].
    + by exists r.
    + eexists. split; [done|]. apply Hlast. by eapply iter_rel_wf.
  - destruct (iteration_cases a text wrap size (Some c) st Hwf) as (s & Hs & Hrel).
    cbn [loop]. rewrite Hs. cbn [mbind option_bind].
    specialize (Hstep c rest st s HI Hwf Hrel). destruct s as [r|st'].
    + by exists r.
    + apply IH; [by eapply iter_rel_wf | done].
Qed.

(** The loop never throws: from a well-formed state it returns a result. *)
Lemma loop_total (rest : list Z) (st : WrapState) :
  wf_state st → is_Some (loop a text wrap size rest st).
Proof.
  intros Hwf.
  destruct (loop_rule (λ _ _, True) (λ _, True)) with (rest := rest) (st := st)
    as (r & Hr & _); try done.
  - intros c r0 st0 s _ _ _. by destruct s.
  - intros st0 s _ _ _. by destruct s.
Qed.

End Loop.

(** ** [wrapText] and its memo *)

Lemma loop_entry_state : loop_entry = Some entry_state.
Proof. reflexivity. Qed.

Lemma entry_state_wf : wf_state entry_state.
Proof. reflexivity. Qed.

Lemma memo_initial_ok : memo_ok memo_initial.
Proof. intros t Ht. discriminate Ht. Qed.

Section Memo.

Context (a : Atlas).

(** With a sound memo, [wrapText] runs the loop on the decoding of its own
    argument, and leaves a sound memo. *)
Lemma wrapText_memo (text : jsstring) (wrap : WrapBox) (size : Z) (m : Memo) :
  memo_ok m →
  fst (wrapText a text wrap size m) =
    loop a text wrap size (toCharCodeArray text) entry_state ∧
  memo_ok (snd (wrapText a text wrap size m)).
Proof.
  intros Hm. unfold wrapText. cbn [fst snd].
  rewrite loop_entry_state. cbn [mbind option_bind].
  destruct (decide (textDrawn m ≠ Some text)) as [Hne|Heq].
  - cbn [textUTF8Array]. split; [done|]. intros t Ht. cbn in *. congruence.
  - apply dec_stable in Heq. split; [|done]. by rewrite (Hm text Heq).
Qed.

Lemma wrapText_total (text : jsstring) (wrap : WrapBox) (size : Z) (m : Memo) :
  memo_ok m → is_Some (fst (wrapText a text wrap size m)).
Proof.
  intros Hm. destruct (wrapText_memo text wrap size m Hm) as [-> _].
  apply loop_total, entry_state_wf.
Qed.

Lemma run_calls_ok (calls : list WrapCall) (m : Memo) :
  memo_ok m → memo_ok (run_calls a calls m).
Proof.
  revert m. induction calls as [|c calls IH]; intros m Hm; [done|].
  apply (IH (snd (wrapText a (call_text c) (call_wrap c) (call_size c) m))).
  by apply wrapText_memo.
Qed.

(** C9: the memo does not show in the results. After any sequence of earlier
    [wrapText] calls on an engine, [wrapText(text, box, scale)] returns what
    it returns on a fresh engine with the same atlas; hence two runs that
    differ only in the earlier calls agree on the final call. *)
Theorem wrapText_memo_transparent (text : jsstring) (wrap : WrapBox) (size : Z) :
  (∀ calls,
     fst (wrapText a text wrap size (run_calls a calls memo_initial)) =
     fst (wrapText a text wrap size memo_initial)) ∧
  (∀ calls1 calls2,
     fst (wrapText a text wrap size (run_calls a calls1 memo_initial)) =
     fst (wrapText a text wrap size (run_calls a calls2 memo_initial))).
Proof.
  assert (∀ calls,
     fst (wrapText a text wrap size (run_calls a calls memo_initial)) =
     fst (wrapText a text wrap size memo_initial)) as Hfresh.
  { intros calls.
    destruct (wrapText_memo text wrap size (run_calls a calls memo_initial)) as [-> _];
      [apply run_calls_ok, memo_initial_ok|].
    by destruct (wrapText_memo text wrap size memo_initial memo_initial_ok) as [-> _]. }
  split; [done|]. intros calls1 calls2. by rewrite !Hfresh.
Qed.

End Memo.

(** ** The two overflow checks *)

Section Overflow.

Context (a : Atlas) (text : jsstring) (wrap : WrapBox) (size : Z).

Local Abbreviation iteration := (iteration a text wrap size).


End Overflow.


(** ** Running to the end of the text *)

Section Completion.

Context (a : Atlas).

Lemma loop_complete (text : jsstring) (wrap : WrapBox) (size : Z)
    (rest : list Z) (st : WrapState) :
  wf_state st →
  ∃ r, loop a text wrap size rest st = Some r ∧
       match r with
       | Truncated _ _ => True
       | Complete lines missing _ usedHeight =>
           missing = [] ∧
           ∃ L : nat, length lines = S L ∧
                      usedHeight = (Z.of_nat L + 1) * charHeight a * size
       end.
Proof.
  intros Hwf. apply (loop_rule a text wrap size (λ _ _, True)); try done.
  - intros c r0 st0 [r|st'] _ _ Hrel; [|done]. by inversion Hrel.
  - intros st0 [r|st'] _ _ Hrel; [by inversion Hrel|].
    intros Hwf'. split; [done|]. exists (line st'). split; [done|].
    unfold getHeight. lia.
Qed.

End Completion.

(** C3: when [wrapText] runs to the end of the text (the four-element
    result), [missing] is the empty string and [usedHeight] is
    [(L + 1) * charHeight * size], [L] being the index of the last line.
    With the atlas of [setup]'s defaults,
    [wrapText("hello world", [1000, 1000, 0], 1)] gives the single line
    "hello", space, "world", space, and an empty [missing]. *)
Theorem wrapText_complete :
  (∀ a text wrap size m lines missing maxW usedHeight,
     memo_ok m →
     fst (wrapText a text wrap size m) = Some (Complete lines missing maxW usedHeight) →
     missing = [] ∧
     ∃ L : nat, length lines = S L ∧
                usedHeight = (Z.of_nat L + 1) * charHeight a * size) ∧
  (∀ m, memo_ok m →
     fst (wrapText setup_defaults (units "hello world")
                   {| wrap0 := 1000; wrap1 := 1000; wrap2 := 0 |} 1 m) =
     Some (Complete [units "hello" ++ [32] ++ units "world" ++ [32]] [] 96 16)).
Proof.
  split.
  - intros a text wrap size m lines missing maxW usedHeight Hm Hres.
    destruct (wrapText_memo a text wrap size m Hm) as [Hloop _].
    rewrite Hloop in Hres.
    destruct (loop_complete a text wrap size (toCharCodeArray text) entry_state
                entry_state_wf) as (r & Hr & Hspec).
    rewrite Hr in Hres. injection Hres as ->. exact Hspec.
  - intros m Hm.
    destruct (wrapText_memo setup_defaults (units "hello world")
                {| wrap0 := 1000; wrap1 := 1000; wrap2 := 0 |} 1 m Hm) as [-> _].
    by vm_compute.
Qed.

Lemma wrapText_complete_witness :
  ([] : jsstring) = [] ∧
  ∃ L : nat, length [[97; 32]; [98; 32]; [99; 32]] = S L ∧
             48 = (Z.of_nat L + 1) * charHeight setup_defaults * 1.
Proof.
  apply (proj1 wrapText_complete setup_defaults (units "a b c")
           {| wrap0 := 9; wrap1 := 1000; wrap2 := 0 |} 1 memo_initial
           [[97; 32]; [98; 32]; [99; 32]] [] 16 48).
  - intros t Ht. discriminate Ht.
  - vm_compute. reflexivity.
Defined.

(** ** Resuming after an early exit *)

Section Resume.

Lemma fold_left_concat (arr : list (list Z)) (flat : list Z) :
  fold_left (λ flat l, flat ++ l) arr flat = flat ++ concat arr.
Proof.
  revert flat. induction arr as [|l arr IH]; intros flat; cbn.
  - by rewrite app_nil_r.
  - by rewrite IH, app_assoc.
Qed.

Lemma missingText_drop (text : jsstring) (arr : list (list Z)) :
  missingText text arr = drop (length (concat arr)) text.
Proof.
  unfold missingText, substring, fromCharCode.
  by rewrite fold_left_concat, length_map.
Qed.

Lemma fromCharCode_units (codes : list Z) :
  wf_string codes → fromCharCode codes = codes.
Proof.
  unfold wf_string, fromCharCode. induction 1 as [|c codes Hc _ IH]; [done|].
  cbn. rewrite IH. by rewrite Z.mod_small.
Qed.

Lemma lf_to_space_units (s : jsstring) :
  wf_string s → wf_string (map lf_to_space s).
Proof.
  unfold wf_string. intros Hs. apply Forall_map. eapply Forall_impl; [exact Hs|].
  intros u Hu. unfold lf_to_space. cbn in *. destruct (u =? 10); lia.
Qed.

Lemma lf_to_space_word (w : list Z) :
  Forall (λ c, c ≠ 10) w → map lf_to_space w = w.
Proof.
  induction 1 as [|c w Hc _ IH]; [done|]. cbn. rewrite IH.
  unfold lf_to_space. by destruct (Z.eqb_spec c 10).
Qed.

Context (a : Atlas) (text : jsstring) (wrap : WrapBox) (size : Z).
Context (Htext : wf_string text).

Local Ltac flatten_lines :=
  rewrite ?concat_app; cbn [concat]; rewrite ?app_nil_r, <- ?app_assoc.

Lemma covers_prefix (pre rest : list Z) (lines : list (list Z)) :
  text = pre ++ rest → concat lines = map lf_to_space pre →
  covers text (Truncated lines (missingText text lines)).
Proof.
  intros Htxt Hlines. exists (length pre). rewrite missingText_drop, Hlines, length_map.
  rewrite Htxt, take_app_length, drop_app_length, length_app.
  split; [lia|]. split; [|done].
  apply fromCharCode_units, lf_to_space_units.
  unfold wf_string in *. rewrite Htxt in Htext. by apply Forall_app in Htext as [? _].
Qed.

Lemma placed_step (c : Z) (rest : list Z) (st : WrapState) (s : Step) :
  placed text (c :: rest) st → iter_rel a text wrap size (Some c) st s →
  match s with
  | Return r => covers text r
  | Continue st' => placed text rest st'
  end.
Proof.
  intros (pre & Htxt & Hlines & Hword) Hrel.
  assert (∀ d, d = 32 ∨ d = 10 →
            map lf_to_space (pre ++ word st ++ [d]) =
            concat (wrapped2DArray st) ++ word st ++ [32]) as Hdelim.
  { intros d Hd. rewrite !map_app, Hlines, (lf_to_space_word (word st)) by done.
    by destruct Hd as [-> | ->]. }
  assert (text = (pre ++ word st ++ [c]) ++ rest) as Htxt'.
  { rewrite Htxt. by rewrite <- !app_assoc. }
  destruct Hrel as [c' Hc' H32 H10|init l Harr Hc' _ _|init l Harr Hc' _ _
                    |init l Harr [Hc'|Hc'] _|Hc' _ _|Hc' _ _];
    try discriminate; try injection Hc' as ->; unfold placed.
  - exists pre. cbn. split; [by rewrite <- app_assoc|]. split; [done|].
    apply Forall_app. split; [done|]. by constructor.
  - eapply covers_prefix; [exact Htxt'|].
    rewrite Hdelim by auto. rewrite Harr. by flatten_lines.
  - exists (pre ++ word st ++ [10]). cbn. split; [done|]. split; [|done].
    rewrite Hdelim by auto. rewrite Harr. by flatten_lines.
  - exists (pre ++ word st ++ [32]). cbn. split; [done|]. split; [|done].
    rewrite Hdelim by auto. rewrite Harr. by flatten_lines.
  - eapply covers_prefix; [exact Htxt|done].
  - exists (pre ++ word st ++ [c]). cbn. split; [done|]. split; [|done].
    rewrite Hdelim by (apply is_word_char_false in Hc' as [?|[?|?]]; naive_solver).
    by flatten_lines.
Qed.

Lemma loop_covers (rest : list Z) (st : WrapState) :
  wf_state st → placed text rest st →
  ∃ r, loop a text wrap size rest st = Some r ∧ covers text r.
Proof.
  apply (loop_rule a text wrap size (placed text) (covers text)).
  - intros c r0 st0 s Hplaced _ Hrel. by eapply placed_step.
  - intros st0 s (pre & Htxt & Hlines & Hword) _ Hrel.
    destruct s as [r|st']; [|done].
    inversion Hrel; subst r; try discriminate.
    eapply covers_prefix; [exact Htxt|done].
Qed.

End Resume.

(** C2, as the code has it: for a text without surrogate pairs, on an
    early exit of [wrapText], the placed codes decoded to a string are the
    first [n] code units of the text with every line feed shown as a space
    ([n] being their number), and [missing] is the text from unit [n] on; so
    the two lengths add up to the length of the text. *)
Theorem wrapText_resumable (a : Atlas) (text : jsstring) (wrap : WrapBox)
    (size : Z) (m : Memo) (lines : list (list Z)) (missing : jsstring) :
  wf_string text → no_surrogate_pair text = true → memo_ok m →
  fst (wrapText a text wrap size m) = Some (Truncated lines missing) →
  let doneText := fromCharCode (concat lines) in
  doneText = map lf_to_space (take (length doneText) text) ∧
  missing = drop (length doneText) text ∧
  (length doneText + length missing = length text)%nat.
Proof.
  intros Htext Hbmp Hm Hres doneText.
  destruct (wrapText_memo a text wrap size m Hm) as [Hloop _].
  rewrite Hloop, toCharCodeArray_bmp in Hres by done.
  destruct (loop_covers a text wrap size Htext text entry_state entry_state_wf)
    as (r & Hr & Hcov).
  { exists []. by rewrite Forall_nil. }
  rewrite Hr in Hres. injection Hres as ->.
  destruct Hcov as (n & Hn & Hdone & Hmiss). fold doneText in Hdone.
  assert (length doneText = n) as Hlen.
  { rewrite Hdone, length_map, length_take. lia. }
  rewrite Hlen. split; [done|]. split; [done|].
  rewrite Hmiss, length_drop. lia.
Qed.

Lemma wrapText_resumable_witness :
  let doneText := fromCharCode (concat [[97; 32]; [98; 32]]) in
  doneText = map lf_to_space (take (length doneText) [97; 10; 98; 10; 99]) ∧
  [99] = drop (length doneText) [97; 10; 98; 10; 99] ∧
  (length doneText + length [99] = length [97; 10; 98; 10; 99])%nat.
Proof.
  apply (wrapText_resumable setup_defaults [97; 10; 98; 10; 99]
           {| wrap0 := 1000; wrap1 := 32; wrap2 := 0 |} 1 memo_initial
           [[97; 32]; [98; 32]] [99]).
  - unfold wf_string. repeat constructor; lia.
  - reflexivity.
  - intros t Ht. discriminate Ht.
  - vm_compute. reflexivity.
Defined.

(** C2 as stated fails. In a box of height 16, the text "a", line feed, "b"
    exits early with the placed codes "a", space and [missing] "b": the
    line feed of the text is in neither. On the text U+1F600, line feed,
    "b", the placed codes are the high surrogate and a space and [missing]
    is line feed, "b": the low surrogate is dropped, the line feed is both
    placed and missing, and the lengths no longer add up. *)
Lemma wrapText_resume_counterexample :
  (fst (wrapText setup_defaults [97; 10; 98]
          {| wrap0 := 1000; wrap1 := 16; wrap2 := 0 |} 1 memo_initial)
   = Some (Truncated [[97; 32]] [98]) ∧
   fromCharCode (concat [[97; 32]]) ++ [98] ≠ [97; 10; 98]) ∧
  (fst (wrapText setup_defaults [55357; 56832; 10; 98]
          {| wrap0 := 1000; wrap1 := 16; wrap2 := 0 |} 1 memo_initial)
   = Some (Truncated [[55357; 32]] [10; 98]) ∧
   fromCharCode (concat [[55357; 32]]) ++ [10; 98] ≠ [55357; 56832; 10; 98]).
Proof. by vm_compute. Qed.

(** ** A box without height *)

Section ZeroHeight.

Context (a : Atlas) (text : jsstring) (wrap : WrapBox) (size : Z).

(** The iterations over the first word only extend the word. *)
Lemma loop_first_word (codes : list Z) arr w l wd ww mw :
  w ≤ mw →
  loop a text wrap size codes
    {| wrapped2DArray := arr; width := w; line := l; word := wd;
       wordWidth := ww; maxWidth := mw |} =
  loop a text wrap size (drop (length (first_word codes)) codes)
    {| wrapped2DArray := arr; width := w; line := l;
       word := wd ++ first_word codes;
       wordWidth :=
         fold_left (λ acc c, acc + getCharWidthFromCharCode a c * size)
                   (first_word codes) ww;
       maxWidth := mw |}.
Proof.
  intros Hw. revert wd ww.
  induction codes as [|c codes IH]; intros wd ww.
  - cbn [first_word length drop fold_left]. by rewrite app_nil_r.
  - cbn [first_word]. destruct (is_word_char (Some c)) eqn:Hc.
    + cbn [length drop fold_left loop]. rewrite iteration_word by done.
      cbn [mbind option_bind]. unfold store_maxWidth, word_char.
      cbn [wrapped2DArray width line word wordWidth maxWidth].
      destruct (Z.gtb_spec w mw); [lia|].
      rewrite IH. by rewrite <- app_assoc.
    + cbn [length drop fold_left]. by rewrite app_nil_r.
Qed.

Lemma first_word_rest (codes : list Z) :
  match drop (length (first_word codes)) codes with
  | [] => True
  | d :: _ => is_word_char (Some d) = false
  end.
Proof.
  induction codes as [|c codes IH]; [done|].
  cbn [first_word]. destruct (is_word_char (Some c)) eqn:Hc; [exact IH | exact Hc].
Qed.

(** A word that does not fit, met where the overflow check succeeds, ends
    the loop with the lines as they are. *)
Lemma loop_overflow_stop (rest : list Z) (st : WrapState) :
  match rest with [] => True | d :: _ => is_word_char (Some d) = false end →
  wrap0 wrap ≤ width st + wordWidth st →
  wrap1 wrap ≤ (Z.of_nat (S (line st)) + 1) * charWidth a * size →
  loop a text wrap size rest st =
  Some (Truncated (wrapped2DArray st) (missingText text (wrapped2DArray st))).
Proof.
  intros Hd Hover Hstop.
  assert (∀ c, is_word_char c = false →
            iteration a text wrap size c st =
            Some (Return (Truncated (wrapped2DArray st)
                                    (missingText text (wrapped2DArray st))))) as Hit.
  { intros c Hc. rewrite iteration_delimiter by done. unfold delimiter.
    destruct (Z.ltb_spec (width st + wordWidth st) (wrap0 wrap)); [lia|].
    destruct (Z.geb_spec ((Z.of_nat (S (line st)) + 1) * charWidth a * size)
                         (wrap1 wrap)); [done|lia]. }
  destruct rest as [|d rest]; cbn [loop]; by rewrite Hit.
Qed.

Lemma first_line_used_app (lines more : list (list Z)) :
  first_line_used lines → first_line_used (lines ++ more).
Proof. intros (l & ls & -> & Hl). by exists l, (ls ++ more). Qed.

Lemma first_line_used_last (init : list (list Z)) (l x : list Z) :
  first_line_used (init ++ [l]) → first_line_used (init ++ [l ++ x ++ [32]]).
Proof.
  intros (l0 & ls & Heq & Hl). destruct init as [|i init]; cbn in *.
  - eexists _, []. split; [done|]. intros Hnil.
    apply app_eq_nil in Hnil as [_ Hnil]. by apply app_eq_nil in Hnil as [_ ?].
  - injection Heq as <- _. by eexists _, _.
Qed.

(** Once line 0 holds something, it does so in every later state and in
    the result. *)
Lemma iter_rel_used (c : option Z) (st : WrapState) (s : Step) :
  iter_rel a text wrap size c st s →
  first_line_used (wrapped2DArray st) →
  match s with
  | Return r => first_line_used (result_lines r)
  | Continue st' => first_line_used (wrapped2DArray st')
  end.
Proof.
  intros Hrel Hused.
  destruct Hrel as [c' _ _ _|init l Harr _ _ _|init l Harr _ _ _
                    |init l Harr _ _|_ _ _|_ _ _]; cbn; try done.
  - rewrite Harr in Hused. by apply first_line_used_last.
  - rewrite Harr in Hused. by apply first_line_used_app, first_line_used_last.
  - rewrite Harr in Hused. by apply first_line_used_last.
  - by apply first_line_used_app.
Qed.

(** A first word that fits is put on line 0. *)
Lemma iter_rel_first (c : option Z) (st : WrapState) (s : Step) :
  iter_rel a text wrap size c st s →
  wrapped2DArray st = [[]] → is_word_char c = false →
  width st + wordWidth st < wrap0 wrap →
  match s with
  | Return r => first_line_used (result_lines r)
  | Continue st' => first_line_used (wrapped2DArray st')
  end.
Proof.
  intros Hrel Hlines Hc Hfit.
  assert (∀ init (l x : list Z),
            [[]] = init ++ [l] → first_line_used (init ++ [l ++ x ++ [32]])) as Hput.
  { intros init l x Heq.
    destruct init as [|i [|j init]]; try discriminate.
    injection Heq as <-. exists (x ++ [32]), []. split; [done|].
    intros Hnil. by apply app_eq_nil in Hnil as [_ ?]. }
  destruct Hrel as [c' -> H32 H10|init l Harr _ _ _|init l Harr _ _ _
                    |init l Harr _ _|_ Hover _|_ Hover _]; cbn; try lia.
  - cbn in Hc. apply andb_false_iff in Hc as [Hc|Hc];
      apply negb_false_iff, Z.eqb_eq in Hc; done.
  - apply Hput. by rewrite <- Harr.
  - apply first_line_used_app, Hput. by rewrite <- Harr.
  - apply Hput. by rewrite <- Harr.
Qed.

Lemma loop_used (rest : list Z) (st : WrapState) :
  wf_state st → first_line_used (wrapped2DArray st) →
  ∃ r, loop a text wrap size rest st = Some r ∧ first_line_used (result_lines r).
Proof.
  apply (loop_rule a text wrap size
           (λ _ st, first_line_used (wrapped2DArray st))
           (λ r, first_line_used (result_lines r))).
  - intros c r0 st0 s Hused _ Hrel. by apply (iter_rel_used _ _ _ Hrel).
  - intros st0 s Hused _ Hrel. pose proof (iter_rel_used _ _ _ Hrel Hused) as H.
    by destruct s.
Qed.

(** From the first delimiter on, when the first word fits. *)
Lemma loop_first_fits (rest : list Z) (st : WrapState) :
  wf_state st → wrapped2DArray st = [[]] →
  match rest with [] => True | d :: _ => is_word_char (Some d) = false end →
  width st + wordWidth st < wrap0 wrap →
  ∃ r, loop a text wrap size rest st = Some r ∧ first_line_used (result_lines r).
Proof.
  intros Hwf Hlines Hd Hfit. destruct rest as [|d rest]; cbn [loop].
  - destruct (iteration_cases a text wrap size None st Hwf) as (s & -> & Hrel).
    pose proof (iter_rel_first _ _ _ Hrel Hlines eq_refl Hfit) as Hused.
    cbn [mbind option_bind]. destruct s as [r|st']; by eexists.
  - destruct (iteration_cases a text wrap size (Some d) st Hwf) as (s & -> & Hrel).
    pose proof (iter_rel_first _ _ _ Hrel Hlines Hd Hfit) as Hused.
    cbn [mbind option_bind]. destruct s as [r|st']; [by eexists|].
    apply loop_used; [by eapply iter_rel_wf | done].
Qed.

End ZeroHeight.

(** C4, as the code has it: in a box of height 0, for a scale that is not
    negative, [wrapText] exits at once with the single empty line and the
    whole text as [missing] when the first word of the text does not fit the
    width of the box. A first word that fits is placed on line 0 before any
    check of the height, and the lines of the result are not [[[]]]. *)
Theorem wrapText_zero_height (a : Atlas) (text : jsstring) (wrap : WrapBox)
    (size : Z) (m : Memo) :
  memo_ok m → 0 < charWidth a → 0 ≤ size →
  wrap1 wrap = 0 →
  let firstWidth := word_width a size (first_word (toCharCodeArray text)) in
  (wrap0 wrap ≤ firstWidth →
     fst (wrapText a text wrap size m) = Some (Truncated [[]] text)) ∧
  (firstWidth < wrap0 wrap →
     ∃ r, fst (wrapText a text wrap size m) = Some r ∧ result_lines r ≠ [[]]).
Proof.
  intros Hm Hcw Hsize Hheight firstWidth.
  destruct (wrapText_memo a text wrap size m Hm) as [-> _].
  unfold entry_state. rewrite loop_first_word by done.
  subst firstWidth. unfold word_width. split; intros Hword.
  - rewrite loop_overflow_stop.
    + cbn [wrapped2DArray]. by rewrite missingText_drop.
    + apply first_word_rest.
    + cbn [width wordWidth]. lia.
    + cbn [line]. rewrite Hheight. nia.
  - match goal with
    | |- context [loop a text wrap size ?rest ?st] =>
        destruct (loop_first_fits a text wrap size rest st) as (r & Hr & Hused)
    end.
    + reflexivity.
    + reflexivity.
    + apply first_word_rest.
    + cbn [width wordWidth]. rewrite Z.add_0_l. exact Hword.
    + exists r. split; [exact Hr|].
      destruct Hused as (l & ls & Hlines & Hl). rewrite Hlines. congruence.
Qed.

Lemma wrapText_zero_height_witness :
  fst (wrapText setup_defaults (units "ab cd")
         {| wrap0 := 16; wrap1 := 0; wrap2 := 0 |} 2 memo_initial)
  = Some (Truncated [[]] (units "ab cd")) ∧
  ∃ r, fst (wrapText setup_defaults (units "ab cd")
              {| wrap0 := 100; wrap1 := 0; wrap2 := 0 |} 2 memo_initial) = Some r ∧
       result_lines r ≠ [[]].
Proof.
  split.
  - destruct (wrapText_zero_height setup_defaults (units "ab cd")
                {| wrap0 := 16; wrap1 := 0; wrap2 := 0 |} 2 memo_initial)
      as [Hstop _]; [intros t Ht; discriminate Ht | reflexivity | lia | reflexivity |].
    apply Hstop. by vm_compute.
  - destruct (wrapText_zero_height setup_defaults (units "ab cd")
                {| wrap0 := 100; wrap1 := 0; wrap2 := 0 |} 2 memo_initial)
      as [_ Hfits]; [intros t Ht; discriminate Ht | reflexivity | lia | reflexivity |].
    apply Hfits. by vm_compute.
Defined.

(** C4 as stated fails: in the box [1000, 0, 0] the text "a" fits the
    width, is placed on line 0, and the loop runs to its end; nothing is
    missing and the line is not empty. *)
Lemma wrapText_zero_height_counterexample :
  ∃ r, fst (wrapText setup_defaults (units "a")
              {| wrap0 := 1000; wrap1 := 0; wrap2 := 0 |} 1 memo_initial) = Some r ∧
       r = Complete [[97; 32]] [] 16 16 ∧
       result_lines r ≠ [[]] ∧
       result_missing r ≠ units "a".
Proof. eexists. by vm_compute. Qed.

(** ** Compositing *)

Section Compositing.

Context (a : Atlas).

Lemma getTextWidth_line_width (text : jsstring) (size : option Z) :
  getTextWidth a text size = line_width a (toCharCodeArray text) * default 1 size.
Proof. reflexivity. Qed.

Lemma drawChr_eq (ctx : Canvas) (chr : Z) (pos : Z * Z) :
  drawChr a ctx chr pos =
  (draw ctx (DrawGlyph (fst (getCharPosition a chr)) (snd (getCharPosition a chr))
                       (charWidth a) (charHeight a) (fst pos) (snd pos)
                       (charWidth a) (charHeight a)),
   getCharWidthFromCharCode a chr).
Proof. unfold drawChr. by destruct (getCharPosition a chr). Qed.

Lemma glyph_step_eq (bx : Canvas) (pen total chr : Z) :
  glyph_step a (bx, pen, total) chr =
  (draw bx (DrawGlyph (fst (getCharPosition a chr)) (snd (getCharPosition a chr))
                      (charWidth a) (charHeight a) pen 0
                      (charWidth a) (charHeight a)),
   pen + getCharWidthFromCharCode a chr,
   total + getCharWidthFromCharCode a chr).
Proof. unfold glyph_step. by rewrite drawChr_eq. Qed.

(** The glyph loop issues one glyph copy per code and adds up the widths. *)
Lemma draw_glyphs_spec (utf8Array : list Z) (bx : Canvas) :
  ∃ glyphs,
    draw_glyphs a bx utf8Array =
      (mkCanvas (canvas_width bx) (canvas_height bx) (canvas_smoothing bx)
                (canvas_ops bx ++ glyphs),
       line_width a utf8Array, line_width a utf8Array) ∧
    forallb is_glyph_op glyphs = true ∧
    length glyphs = length utf8Array.
Proof.
  unfold draw_glyphs, line_width.
  assert (∀ codes bx pen total,
            ∃ glyphs,
              fold_left (glyph_step a) codes (bx, pen, total) =
              (mkCanvas (canvas_width bx) (canvas_height bx) (canvas_smoothing bx)
                        (canvas_ops bx ++ glyphs),
               fold_left (λ w c, w + getCharWidthFromCharCode a c) codes pen,
               fold_left (λ w c, w + getCharWidthFromCharCode a c) codes total) ∧
              forallb is_glyph_op glyphs = true ∧
              length glyphs = length codes) as Hloop.
  { induction codes as [|c codes IH]; intros bx0 pen total.
    - exists []. cbn. rewrite app_nil_r. by destruct bx0.
    - cbn [fold_left]. rewrite glyph_step_eq.
      destruct (IH (draw bx0 (DrawGlyph (fst (getCharPosition a c))
                                 (snd (getCharPosition a c))
                                 (charWidth a) (charHeight a) pen 0
                                 (charWidth a) (charHeight a)))
                   (pen + getCharWidthFromCharCode a c)
                   (total + getCharWidthFromCharCode a c))
        as (glyphs & -> & Hglyphs & Hlen).
      eexists (_ :: glyphs). split; [|split].
      + destruct bx0. cbn. by rewrite <- app_assoc.
      + done.
      + cbn. by rewrite Hlen. }
  apply Hloop.
Qed.

Lemma tinted_buffer_spec (utf8Array : list Z) (color : jsval) :
  ∃ glyphs,
    tinted_buffer a utf8Array color =
      (mkCanvas (charWidth a * Z.of_nat (length utf8Array)) (charHeight a) false
         (glyphs ++
          [SetFillStyle color; SetCompositeSourceIn;
           FillRect 0 0 (charWidth a * Z.of_nat (length utf8Array)) (charHeight a)]),
       line_width a utf8Array) ∧
    forallb is_glyph_op glyphs = true ∧
    length glyphs = length utf8Array.
Proof.
  unfold tinted_buffer.
  destruct (draw_glyphs_spec utf8Array
              (createBufferCanvas (charWidth a * Z.of_nat (length utf8Array))
                                  (charHeight a)))
    as (glyphs & -> & Hglyphs & Hlen).
  exists glyphs. split; [|done].
  assert (tint_guard color = true) as -> by (by destruct color).
  unfold draw. cbn. by rewrite <- !app_assoc.
Qed.

(** C10: the guard of the tint step holds for every colour, [undefined] and
    [null] among them; so the line buffer of every [drawTextCanvas] call
    ends with the source-in fill of its whole area, issued after all the
    glyph copies, and the canvas the call copies to its target is that
    buffer or the upscaled copy of that buffer. *)
Theorem tint_unconditional :
  (∀ color, tint_guard color = true) ∧
  (∀ utf8Array color,
     ∃ glyphs,
       forallb is_glyph_op glyphs = true ∧
       canvas_ops (fst (tinted_buffer a utf8Array color)) =
         glyphs ++
         [SetFillStyle color; SetCompositeSourceIn;
          FillRect 0 0 (charWidth a * Z.of_nat (length utf8Array)) (charHeight a)]) ∧
  (∀ ctx utf8Array pos color size,
     ∃ image,
       canvas_ops (fst (drawTextCanvas a ctx utf8Array pos color size)) =
         canvas_ops ctx ++ [DrawCanvas image (fst pos) (snd pos)] ∧
       (image = fst (tinted_buffer a utf8Array color) ∨
        ∃ w h, canvas_ops image =
                 [DrawCanvasScaled (fst (tinted_buffer a utf8Array color)) 0 0 w h])).
Proof.
  split; [by intros []|]. split.
  - intros utf8Array color.
    destruct (tinted_buffer_spec utf8Array color) as (glyphs & -> & Hglyphs & _).
    by exists glyphs.
  - intros ctx utf8Array pos color size.
    exists (line_image a utf8Array color size). split; [done|].
    unfold line_image. destruct size as [size|]; [|by left].
    destruct (size =? 1); [by left|]. right. by eexists _, _.
Qed.

(** The size of the buffer of [drawTextShadow]: the scaled cell grid of the
    line and one pixel more each way. *)
Lemma drawTextShadow_buffer_size (utf8Array : list Z) (color : jsval)
    (size : option Z) (shadowcolor : jsval) :
  let s := default 1 size in
  let r := drawTextShadow a utf8Array color size shadowcolor in
  canvas_width (fst r) = charWidth a * Z.of_nat (length utf8Array) * s + 1 ∧
  canvas_height (fst r) = charHeight a * s + 1.
Proof.
  intros s r. subst r. unfold drawTextShadow, drawTextCanvas. fold s.
  cbn [fst snd draw canvas_width canvas_height createBufferCanvas]. done.
Qed.

(** C6, as the code has it: the buffer of [drawTextShadow] is the scaled
    cell grid of the line, [charWidth * length * size] by
    [charHeight * size], widened and heightened by one and the same positive
    margin; the line tinted with the shadow colour is copied to it at
    [(size, size)], then the line tinted with the colour at [(0, 0)]; the
    returned width is the width of the line at scale 1 plus [size]. *)
Theorem drawTextShadow_spec (utf8Array : list Z) (color : jsval)
    (size : option Z) (shadowcolor : jsval) :
  let s := default 1 size in
  let r := drawTextShadow a utf8Array color size shadowcolor in
  (∃ margin, 0 < margin ∧
     canvas_width (fst r) = charWidth a * Z.of_nat (length utf8Array) * s + margin ∧
     canvas_height (fst r) = charHeight a * s + margin) ∧
  canvas_ops (fst r) =
    [DrawCanvas (line_image a utf8Array shadowcolor (Some s)) s s;
     DrawCanvas (line_image a utf8Array color (Some s)) 0 0] ∧
  snd r = line_width a utf8Array + s.
Proof.
  intros s r. split.
  - exists 1. split; [lia|].
    apply (drawTextShadow_buffer_size utf8Array color size shadowcolor).
  - subst r. unfold drawTextShadow, drawTextCanvas. fold s.
    destruct (tinted_buffer_spec utf8Array color) as (glyphs & Hbuf & _).
    cbn [fst snd]. by rewrite Hbuf.
Qed.

End Compositing.

(** C6 as stated fails: for the line "AB" at scale 2 with the default atlas
    the buffer is 65 by 33, where [measure(line, 1) * scale + scale] is 34
    and [cellHeight * scale + scale] is 34. *)
Lemma drawTextShadow_counterexample :
  let r := drawTextShadow setup_defaults [65; 66] (JStr "blue") (Some 2) (JStr "red") in
  canvas_width (fst r) = 65 ∧
  canvas_height (fst r) = 33 ∧
  canvas_width (fst r) ≠ line_width setup_defaults [65; 66] * 2 + 2 ∧
  canvas_height (fst r) ≠ charHeight setup_defaults * 2 + 2.
Proof. by vm_compute. Qed.

(** ** Placing the lines *)

Section Lines.

Context (a : Atlas).

Lemma truthy_defaulted (shadow : jsval) :
  truthy (if typeof_is_undefined shadow || is_null shadow
          then JBool false else shadow) = truthy shadow.
Proof. by destruct shadow. Qed.




End Lines.


(** C7: the two branches of the loop of [drawText] disagree on the pitch.
    With an atlas of 8 by 8 cells, the two lines of "a", line feed, "b"
    drawn at (0, 0) with scale 1 are copied to y = 0 and
    y = 0 + 1 * 16 * 1 = 16 when there is no shadow, as the fixed pitch of
    16 has it, and to y = 0 and y = 1 * charHeight = 8 when there is a
    shadow. *)
Theorem drawText_shadow_pitch :
  (∃ missing m' ctx',
     two_lines_without_shadow = Some (missing, m', ctx') ∧
     map blit_position (canvas_ops ctx') = [Some (0, 0); Some (0, 0 + 1 * 16 * 1)]) ∧
  (∃ missing m' ctx',
     two_lines_with_shadow = Some (missing, m', ctx') ∧
     map blit_position (canvas_ops ctx') = [Some (0, 0); Some (0, 8)] ∧
     map blit_position (canvas_ops ctx') ≠ [Some (0, 0); Some (0, 0 + 1 * 16 * 1)]).
Proof. split; do 3 eexists; by vm_compute. Qed.

(** * Further properties *)

(** ** Decoding and encoding back *)

Section RoundTrip.

(** The iterator never yields more elements than the string has units, and
    yields fewer as soon as it meets a surrogate pair. *)
Lemma array_from_length_cons (str : jsstring) :
  ((length (array_from str) ≤ length str)%nat ∧
   (no_surrogate_pair str = false → (length (array_from str) < length str)%nat)) ∧
  ∀ u, (length (array_from (u :: str)) ≤ length (u :: str))%nat ∧
       (no_surrogate_pair (u :: str) = false →
        (length (array_from (u :: str)) < length (u :: str))%nat).
Proof.
  induction str as [|v rest [[IHle IHlt] IHcons]].
  - split; [split; [done | discriminate]|]. intros u. split; [done | discriminate].
  - split; [apply IHcons|]. intros u.
    change (array_from (u :: v :: rest)) with
      (if is_high_surrogate u && is_low_surrogate v
       then Two u v :: array_from rest else One u :: array_from (v :: rest)).
    change (no_surrogate_pair (u :: v :: rest)) with
      (negb (is_high_surrogate u && is_low_surrogate v) &&
       no_surrogate_pair (v :: rest)).
    destruct (IHcons v) as [Hle Hlt].
    destruct (is_high_surrogate u && is_low_surrogate v); cbn [negb andb length] in *.
    + split; [lia|]. intros _. lia.
    + split; [lia|]. intros Hpair. specialize (Hlt Hpair). lia.
Qed.

Lemma toCharCodeArray_length_le (str : jsstring) :
  (length (toCharCodeArray str) ≤ length str)%nat.
Proof. rewrite toCharCodeArray_length. apply array_from_length_cons. Qed.

(** Decoding a string and encoding the codes back with
    [String.fromCharCode] returns the string exactly when the string has no
    surrogate pair; with a pair, the result is shorter. *)
Theorem fromCharCode_toCharCodeArray (str : jsstring) :
  wf_string str →
  (fromCharCode (toCharCodeArray str) = str ↔ no_surrogate_pair str = true) ∧
  (no_surrogate_pair str = false →
   (length (fromCharCode (toCharCodeArray str)) < length str)%nat).
Proof.
  intros Hstr.
  assert (no_surrogate_pair str = false →
          (length (fromCharCode (toCharCodeArray str)) < length str)%nat) as Hshort.
  { intros Hpair. unfold fromCharCode. rewrite length_map, toCharCodeArray_length.
    by apply array_from_length_cons. }
  split; [|done]. split.
  - intros Heq. destruct (no_surrogate_pair str) eqn:Hpair; [done|].
    specialize (Hshort eq_refl). rewrite Heq in Hshort. lia.
  - intros Hbmp. rewrite toCharCodeArray_bmp by done. by apply fromCharCode_units.
Qed.

End RoundTrip.

Lemma fromCharCode_toCharCodeArray_witness :
  (fromCharCode (toCharCodeArray (units "hello")) = units "hello"
   ↔ no_surrogate_pair (units "hello") = true) ∧
  (no_surrogate_pair (units "hello") = false →
   (length (fromCharCode (toCharCodeArray (units "hello"))) < length (units "hello"))%nat).
Proof.
  apply fromCharCode_toCharCodeArray. unfold wf_string.
  change (units "hello") with [104; 101; 108; 108; 111]. repeat constructor; lia.
Defined.

(** ** Measuring text *)

Section Measure.

Context (a : Atlas).

Lemma line_width_acc (codes : list Z) (acc : Z) :
  fold_left (λ w c, w + getCharWidthFromCharCode a c) codes acc =
  acc + line_width a codes.
Proof.
  unfold line_width. revert acc. induction codes as [|c codes IH]; intros acc.
  - cbn. lia.
  - cbn [fold_left]. rewrite IH, (IH (0 + _)). lia.
Qed.

Lemma line_width_cons (c : Z) (codes : list Z) :
  line_width a (c :: codes) = getCharWidthFromCharCode a c + line_width a codes.
Proof. unfold line_width at 1. cbn [fold_left]. rewrite line_width_acc. lia. Qed.

Lemma line_width_app (codes1 codes2 : list Z) :
  line_width a (codes1 ++ codes2) = line_width a codes1 + line_width a codes2.
Proof.
  induction codes1 as [|c codes1 IH]; [done|].
  cbn [app]. rewrite !line_width_cons, IH. lia.
Qed.

Lemma line_width_bounds (codes : list Z) :
  0 ≤ ANSICharWidth a ≤ charWidth a →
  ANSICharWidth a * Z.of_nat (length codes) ≤ line_width a codes
    ≤ charWidth a * Z.of_nat (length codes).
Proof.
  intros Hw. induction codes as [|c codes IH]; [cbn; lia|].
  rewrite line_width_cons. cbn [length]. unfold getCharWidthFromCharCode.
  destruct (c <? 32 * 256); lia.
Qed.

(** The measured width of a text is linear in the scale, and lies between
    the widths of as many narrow and as many wide glyphs as the text has
    code points. *)
Theorem getTextWidth_bounds (text : jsstring) (k : Z) :
  0 ≤ ANSICharWidth a ≤ charWidth a → 0 ≤ k →
  let n := Z.of_nat (length (toCharCodeArray text)) in
  getTextWidth a text (Some k) = k * getTextWidth a text None ∧
  ANSICharWidth a * n * k ≤ getTextWidth a text (Some k) ≤ charWidth a * n * k.
Proof.
  intros Hw Hk n. rewrite !getTextWidth_line_width. cbn [from_option id].
  pose proof (line_width_bounds (toCharCodeArray text) Hw). subst n.
  split; [lia | nia].
Qed.

Lemma no_surrogate_pair_tail (u : Z) (s : jsstring) :
  no_surrogate_pair (u :: s) = true → no_surrogate_pair s = true.
Proof. destruct s as [|v s]; [done|]. intros H. by apply andb_prop in H as [_ ?]. Qed.

Lemma no_surrogate_pair_app (s t : jsstring) :
  no_surrogate_pair (s ++ t) = true →
  no_surrogate_pair s = true ∧ no_surrogate_pair t = true.
Proof.
  induction s as [|u s IH]; intros H; [done|].
  destruct (IH (no_surrogate_pair_tail _ _ H)) as [Hs Ht]. split; [|done].
  destruct s as [|v s]; [done|].
  cbn [app] in H. apply andb_prop in H as [Hpair _].
  change (no_surrogate_pair (u :: v :: s)) with
    (negb (is_high_surrogate u && is_low_surrogate v) && no_surrogate_pair (v :: s)).
  by rewrite Hpair, Hs.
Qed.

(** Measuring is additive over concatenation, as long as joining the two
    texts forms no surrogate pair. *)
Theorem getTextWidth_app (s t : jsstring) (size : option Z) :
  no_surrogate_pair (s ++ t) = true →
  getTextWidth a (s ++ t) size = getTextWidth a s size + getTextWidth a t size.
Proof.
  intros Hst. destruct (no_surrogate_pair_app s t Hst) as [Hs Ht].
  rewrite !getTextWidth_line_width, !toCharCodeArray_bmp by done.
  rewrite line_width_app. lia.
Qed.

End Measure.

Lemma getTextWidth_bounds_witness :
  let n := Z.of_nat (length (toCharCodeArray [65; 28450])) in
  getTextWidth setup_defaults [65; 28450] (Some 3) =
    3 * getTextWidth setup_defaults [65; 28450] None ∧
  ANSICharWidth setup_defaults * n * 3 ≤ getTextWidth setup_defaults [65; 28450] (Some 3)
    ≤ charWidth setup_defaults * n * 3.
Proof. apply getTextWidth_bounds; cbn; lia. Defined.

Lemma getTextWidth_app_witness :
  getTextWidth setup_defaults (units "AB" ++ units "CD") (Some 2) =
  getTextWidth setup_defaults (units "AB") (Some 2) +
  getTextWidth setup_defaults (units "CD") (Some 2).
Proof. apply getTextWidth_app. reflexivity. Defined.

(** Joining a high surrogate and a low surrogate makes one code point of
    two: the widths do not add up across such a seam. *)
Lemma getTextWidth_seam :
  getTextWidth setup_defaults ([55357] ++ [56832]) None = 16 ∧
  getTextWidth setup_defaults [55357] None + getTextWidth setup_defaults [56832] None = 32.
Proof. by vm_compute. Qed.

(** ** Cells of the atlas *)

Section Cells.

Context (a : Atlas).

(** The position is always the cell of some index that is not negative; a
    configured glyph table holds the character at that index, or the index
    is 0 for a character it does not hold; without a table the index is the
    code. *)
Lemma getCharPosition_index (code : Z) :
  0 ≤ code < 65536 → 0 < charsInRow a →
  ∃ index,
    0 ≤ index ∧
    getCharPosition a code =
      (charWidth a * (index `mod` charsInRow a),
       charHeight a * (index `div` charsInRow a)) ∧
    (charMap_configured a = false → index = code) ∧
    (∀ cm, charMap a = Some cm → charMap_configured a = true → code ∈ cm →
           cm !! Z.to_nat index = Some code).
Proof.
  intros Hcode Hrow. unfold getCharPosition. rewrite (Z.mod_small code) by lia.
  destruct (charMap_configured a) eqn:Hconf.
  - unfold charMap_configured in Hconf.
    destruct (charMap a) as [cm|] eqn:Hcm; [|done]. cbn [from_option id].
    destruct (decide (code ∈ cm)) as [Hin|Hnot].
    + destruct (indexOf_from_Some cm code 0 ltac:(lia) Hin) as (k & Hk & Hlook & _).
      unfold indexOf. rewrite Hk, Z.add_0_l.
      destruct (Z.eqb_spec (Z.of_nat k) (-1)); [lia|].
      exists (Z.of_nat k). split; [lia|].
      split; [by rewrite Z.rem_mod_nonneg by lia|]. split; [done|].
      intros cm' Hcm' _ _. injection Hcm' as <-. by rewrite Nat2Z.id.
    + assert (indexOf cm code = -1) as -> by (by apply indexOf_from_None).
      exists 0. split; [done|].
      split; [by rewrite Z.mod_0_l, Z.div_0_l, !Z.mul_0_r by lia|].
      split; [done|]. intros cm' Hcm' _ Hin. injection Hcm' as <-. done.
  - destruct (Z.eqb_spec code (-1)); [lia|].
    exists code. split; [lia|].
    split; [by rewrite Z.rem_mod_nonneg by lia|]. split; [done|].
    intros cm _ Hfalse. done.
Qed.

(** Every position is the corner of a cell of the grid: a column below
    [charsInRow] and a row that is not negative. *)
Theorem getCharPosition_in_grid (code : Z) :
  0 ≤ code < 65536 → 0 < charsInRow a →
  ∃ col row,
    0 ≤ col < charsInRow a ∧ 0 ≤ row ∧
    getCharPosition a code = (charWidth a * col, charHeight a * row).
Proof.
  intros Hcode Hrow.
  destruct (getCharPosition_index code Hcode Hrow) as (index & Hidx & -> & _).
  exists (index `mod` charsInRow a), (index `div` charsInRow a).
  split; [by apply Z.mod_pos_bound|]. split; [|done].
  apply Z.div_pos; lia.
Qed.

(** Two characters that the atlas knows (any two codes when there is no
    glyph table, two characters of the table otherwise) never share a
    cell. *)
Theorem getCharPosition_injective (code1 code2 : Z) :
  0 < charWidth a → 0 < charHeight a → 0 < charsInRow a →
  0 ≤ code1 < 65536 → 0 ≤ code2 < 65536 →
  (∀ cm, charMap a = Some cm → charMap_configured a = true →
         code1 ∈ cm ∧ code2 ∈ cm) →
  getCharPosition a code1 = getCharPosition a code2 → code1 = code2.
Proof.
  intros Hcw Hch Hrow Hc1 Hc2 Hknown.
  destruct (getCharPosition_index code1 Hc1 Hrow) as (i1 & Hi1 & -> & Hraw1 & Hmap1).
  destruct (getCharPosition_index code2 Hc2 Hrow) as (i2 & Hi2 & -> & Hraw2 & Hmap2).
  intros Heq. injection Heq as Hx Hy.
  apply Z.mul_reg_l in Hx, Hy; [|lia..].
  assert (i1 = i2) as <-.
  { rewrite (Z.div_mod i1 (charsInRow a)), (Z.div_mod i2 (charsInRow a)) by lia.
    by rewrite Hx, Hy. }
  destruct (charMap_configured a) eqn:Hconf.
  - unfold charMap_configured in Hconf.
    destruct (charMap a) as [cm|] eqn:Hcm; [|done].
    destruct (Hknown cm eq_refl eq_refl) as [Hin1 Hin2].
    specialize (Hmap1 cm eq_refl eq_refl Hin1).
    specialize (Hmap2 cm eq_refl eq_refl Hin2). congruence.
  - rewrite <- (Hraw1 eq_refl). by apply Hraw2.
Qed.

End Cells.

Lemma getCharPosition_in_grid_witness :
  ∃ col row,
    0 ≤ col < charsInRow setup_defaults ∧ 0 ≤ row ∧
    getCharPosition setup_defaults 28450 =
      (charWidth setup_defaults * col, charHeight setup_defaults * row).
Proof. apply getCharPosition_in_grid; cbn; lia. Defined.

Lemma getCharPosition_injective_witness : (66 : Z) = 66.
Proof.
  apply (getCharPosition_injective atlas_abc 66 66); try (cbn; lia).
  - intros cm Hcm _. injection Hcm as <-.
    change (units "ABC") with [65; 66; 67].
    split; apply list_elem_of_further, list_elem_of_here.
  - reflexivity.
Defined.

(** ** What [wrapText] returns *)

Ltac join_lines :=
  rewrite ?concat_app; cbn [concat]; rewrite ?app_nil_r, <- ?app_assoc.

Section WrapResults.

Context (a : Atlas).

(** An iteration that goes on keeps the invariant [placed], whatever text
    the early exits would slice. *)
Lemma placed_continue (text : jsstring) (wrap : WrapBox) (size : Z)
    (codes : list Z) (c : Z) (rest : list Z) (st st' : WrapState) :
  placed codes (c :: rest) st →
  iter_rel a text wrap size (Some c) st (Continue st') →
  placed codes rest st'.
Proof.
  intros (pre & Hcodes & Hlines & Hword) Hrel.
  assert (∀ d, d = 32 ∨ d = 10 →
            map lf_to_space (pre ++ word st ++ [d]) =
            concat (wrapped2DArray st) ++ word st ++ [32]) as Hdelim.
  { intros d Hd. rewrite !map_app, Hlines, (lf_to_space_word (word st)) by done.
    by destruct Hd as [-> | ->]. }
  assert (codes = (pre ++ word st ++ [c]) ++ rest) as Hcodes'.
  { rewrite Hcodes. by rewrite <- !app_assoc. }
  inversion Hrel as [c' Hc' H32 H10|
                     |init l Harr Hc' _ _|init l Harr [Hc'|Hc'] _| |Hc' _ _];
    subst; try discriminate; try injection Hc' as ->; unfold placed; cbn.
  - exists pre. split; [by rewrite <- app_assoc|]. split; [done|].
    apply Forall_app. split; [done|]. by constructor.
  - exists (pre ++ word st ++ [10]). split; [done|]. split; [|done].
    rewrite Hdelim by auto. rewrite Harr. by join_lines.
  - exists (pre ++ word st ++ [32]). split; [done|]. split; [|done].
    rewrite Hdelim by auto. rewrite Harr. by join_lines.
  - exists (pre ++ word st ++ [c]). split; [done|]. split; [|done].
    rewrite Hdelim by (apply is_word_char_false in Hc' as [?|[?|?]]; naive_solver).
    by join_lines.
Qed.

Lemma loop_content (text : jsstring) (wrap : WrapBox) (size : Z)
    (codes rest : list Z) (st : WrapState) :
  wf_state st → placed codes rest st →
  ∃ r, loop a text wrap size rest st = Some r ∧
       match r with
       | Truncated _ _ => True
       | Complete lines _ _ _ => concat lines = map lf_to_space codes ++ [32]
       end.
Proof.
  apply (loop_rule a text wrap size (placed codes)).
  - intros c r0 st0 [r|st'] Hplaced _ Hrel; [by inversion Hrel|].
    by eapply placed_continue.
  - intros st0 [r|st'] (pre & Hcodes & Hlines & Hword) _ Hrel; [by inversion Hrel|].
    intros _. rewrite Hcodes, app_nil_r, map_app, (lf_to_space_word (word st0)) by done.
    inversion Hrel; subst; cbn [wrapped2DArray store_maxWidth]; try discriminate.
    + match goal with H : wrapped2DArray st0 = _ |- _ => rewrite H in Hlines end.
      rewrite <- Hlines. by join_lines.
    + rewrite <- Hlines. by join_lines.
Qed.

(** An iteration that leaves through an early exit has placed no more codes
    than the text has. *)
Lemma placed_return (text : jsstring) (wrap : WrapBox) (size : Z)
    (codes : list Z) (c : option Z) (rest : list Z) (st : WrapState)
    (r : WrapResult) :
  placed codes (from_option (λ c, c :: rest) rest c) st →
  iter_rel a text wrap size c st (Return r) →
  (length (concat (result_lines r)) ≤ length codes)%nat.
Proof.
  intros (pre & Hcodes & Hlines & _) Hrel.
  apply (f_equal length) in Hcodes, Hlines.
  rewrite !length_app in Hcodes. rewrite length_map in Hlines.
  inversion Hrel as [|init l Harr Hc _ _| | |Hc _ _|]; subst; cbn [result_lines].
  - rewrite Harr in Hlines. rewrite !concat_app, !length_app in *.
    cbn [from_option concat length] in *. rewrite !length_app in *.
    cbn [length] in *. lia.
  - lia.
Qed.

Lemma loop_placed_count (text : jsstring) (wrap : WrapBox) (size : Z)
    (codes rest : list Z) (st : WrapState) :
  wf_state st → placed codes rest st →
  ∃ r, loop a text wrap size rest st = Some r ∧
       match r with
       | Truncated lines _ => (length (concat lines) ≤ length codes)%nat
       | Complete _ _ _ _ => True
       end.
Proof.
  apply (loop_rule a text wrap size (placed codes)).
  - intros c r0 st0 [r|st'] Hplaced _ Hrel.
    + pose proof (placed_return text wrap size codes (Some c) r0 st0 r Hplaced Hrel).
      by destruct r.
    + by eapply placed_continue.
  - intros st0 [r|st'] Hplaced _ Hrel; [|done].
    pose proof (placed_return text wrap size codes None [] st0 r Hplaced Hrel).
    by destruct r.
Qed.

(** On a host whose calls take at least as many arguments as the text has
    decoded codes, [wrapText] returns a result, after any sequence of earlier
    [wrapText] calls: the line it appends to is always there (no TypeError),
    and the array that an early exit hands to [String.fromCharCode.apply]
    is never longer than the decoded text (no RangeError). *)
Theorem wrapText_host_returns (limit : nat) (calls : list WrapCall)
    (text : jsstring) (wrap : WrapBox) (size : Z) :
  (length (toCharCodeArray text) ≤ limit)%nat →
  ∃ r, wrapText_host a limit text wrap size (run_calls a calls memo_initial) = Some r ∧
       fst (wrapText a text wrap size (run_calls a calls memo_initial)) = Some r.
Proof.
  intros Hlimit. unfold wrapText_host.
  destruct (wrapText_memo a text wrap size (run_calls a calls memo_initial))
    as [-> _]; [apply run_calls_ok, memo_initial_ok|].
  destruct (loop_placed_count text wrap size (toCharCodeArray text)
              (toCharCodeArray text) entry_state entry_state_wf)
    as (r & -> & Hcount).
  { exists []. by rewrite Forall_nil. }
  exists r. split; [|done]. cbn [mbind option_bind].
  destruct r as [lines missing|]; [|done].
  rewrite fold_left_concat. cbn [app]. rewrite decide_True by lia. done.
Qed.

(** When [wrapText] runs to the end of the text, the lines put end to end
    are the decoded text with every line feed shown as a space, followed by
    one closing space: nothing of the text is lost, repeated or reordered. *)
Theorem wrapText_complete_content (text : jsstring) (wrap : WrapBox) (size : Z)
    (m : Memo) (lines : list (list Z)) (missing : jsstring) (maxW usedH : Z) :
  memo_ok m →
  fst (wrapText a text wrap size m) = Some (Complete lines missing maxW usedH) →
  concat lines = map lf_to_space (toCharCodeArray text) ++ [32].
Proof.
  intros Hm Hres. destruct (wrapText_memo a text wrap size m Hm) as [Hloop _].
  rewrite Hloop in Hres.
  destruct (loop_content text wrap size (toCharCodeArray text) (toCharCodeArray text)
              entry_state entry_state_wf) as (r & Hr & Hcontent).
  { exists []. by rewrite Forall_nil. }
  rewrite Hr in Hres. injection Hres as ->. exact Hcontent.
Qed.

End WrapResults.

Lemma wrapText_host_returns_witness :
  ∃ r, wrapText_host setup_defaults 5 [97; 10; 98; 10; 99]
         {| wrap0 := 1000; wrap1 := 32; wrap2 := 0 |} 1
         (run_calls setup_defaults [] memo_initial) = Some r ∧
       fst (wrapText setup_defaults [97; 10; 98; 10; 99]
              {| wrap0 := 1000; wrap1 := 32; wrap2 := 0 |} 1
              (run_calls setup_defaults [] memo_initial)) = Some r.
Proof. apply (wrapText_host_returns setup_defaults 5 []). cbn. lia. Defined.

(** The bound is on the decoded text; below it the call can throw. A host
    that takes 3 arguments rejects the 4 codes placed for "a", line feed,
    "b", line feed, "c" in a box two lines high. *)
Lemma wrapText_host_limit :
  wrapText_host setup_defaults 3 [97; 10; 98; 10; 99]
    {| wrap0 := 1000; wrap1 := 32; wrap2 := 0 |} 1 memo_initial = None ∧
  wrapText_host setup_defaults 4 [97; 10; 98; 10; 99]
    {| wrap0 := 1000; wrap1 := 32; wrap2 := 0 |} 1 memo_initial =
    Some (Truncated [[97; 32]; [98; 32]] [99]).
Proof. by vm_compute. Qed.

Lemma wrapText_complete_content_witness :
  concat [[97; 32]; []; [98; 32]; [99; 32]] =
  map lf_to_space (toCharCodeArray [97; 10; 98; 32; 99]) ++ [32].
Proof.
  apply (wrapText_complete_content setup_defaults [97; 10; 98; 32; 99]
           {| wrap0 := 9; wrap1 := 1000; wrap2 := 0 |} 1 memo_initial
           [[97; 32]; []; [98; 32]; [99; 32]] [] 16 64).
  - intros t Ht. discriminate Ht.
  - vm_compute. reflexivity.
Defined.

(** ** The shape of the lines *)

Section LineShape.

Context (a : Atlas) (text : jsstring) (wrap : WrapBox) (size : Z).

Lemma line_ok_place (l w : list Z) :
  10 ∉ l → 10 ∉ w → line_ok (l ++ w ++ [32]).
Proof.
  intros Hl Hw. split.
  - rewrite !not_elem_of_app, not_elem_of_cons. repeat split; try done.
    apply not_elem_of_nil.
  - right. by rewrite app_assoc, last_snoc.
Qed.

Lemma line_ok_nil : line_ok [].
Proof. split; [apply not_elem_of_nil | by left]. Qed.

Lemma iter_rel_lines_ok (c : option Z) (st : WrapState) (s : Step) :
  iter_rel a text wrap size c st s →
  Forall line_ok (wrapped2DArray st) → 10 ∉ word st →
  match s with
  | Return r => Forall line_ok (result_lines r)
  | Continue st' => Forall line_ok (wrapped2DArray st') ∧ 10 ∉ word st'
  end.
Proof.
  intros Hrel Hlines Hword.
  assert (∀ init l, wrapped2DArray st = init ++ [l] →
            Forall line_ok (init ++ [l ++ word st ++ [32]])) as Hplace.
  { intros init l Harr. rewrite Harr in Hlines.
    apply Forall_app in Hlines as [Hinit Hl]. apply Forall_app. split; [done|].
    constructor; [|constructor]. apply line_ok_place; [|done].
    by apply Forall_inv in Hl as [? _]. }
  destruct Hrel as [c' _ _ H10|init l Harr _ _ _|init l Harr _ _ _
                    |init l Harr _ _|_ _ _|_ _ _]; cbn.
  - split; [done|]. rewrite not_elem_of_app, not_elem_of_cons.
    split; [done|]. split; [done | apply not_elem_of_nil].
  - by apply Hplace.
  - split; [|apply not_elem_of_nil]. apply Forall_app. split; [by apply Hplace|].
    constructor; [apply line_ok_nil | constructor].
  - split; [by apply Hplace | apply not_elem_of_nil].
  - done.
  - split; [|apply not_elem_of_nil]. apply Forall_app. split; [done|].
    constructor; [|constructor]. apply (line_ok_place []); [apply not_elem_of_nil | done].
Qed.

Lemma iter_rel_line_opened (c : option Z) (st : WrapState) (s : Step) :
  iter_rel a text wrap size c st s → wf_state st →
  line_opened a wrap size (S (line st)) →
  match s with
  | Return r => line_opened a wrap size (length (result_lines r))
  | Continue st' => line_opened a wrap size (S (line st'))
  end.
Proof.
  unfold wf_state, line_opened. intros Hrel Hwf Hopen.
  destruct Hrel as [c' _ _ _|init l Harr _ _ _|init l Harr _ _ Hnext
                    |init l Harr _ _|_ _ _|_ _ Hnext];
    cbn [result_lines line store_maxWidth word_char]; try done.
  - rewrite Harr, length_app in Hwf. rewrite length_app. cbn [length] in *.
    by replace (length init + 1)%nat with (S (line st)) by lia.
  - right. left. by replace (S (S (line st)) - 1)%nat with (S (line st)) by lia.
  - by rewrite Hwf.
  - right. right. by rewrite (Nat2Z.inj_succ (S (line st))), <- Z.add_1_r.
Qed.

End LineShape.

Section WrapShape.

Context (a : Atlas).

(** In every result of [wrapText], whether complete or cut short, no line
    holds a line feed, and every line that is not empty ends with a space:
    lines are made of whole words, each followed by its space. *)
Theorem wrapText_lines_ok (text : jsstring) (wrap : WrapBox) (size : Z)
    (m : Memo) (r : WrapResult) :
  memo_ok m → fst (wrapText a text wrap size m) = Some r →
  Forall line_ok (result_lines r).
Proof.
  intros Hm Hres. destruct (wrapText_memo a text wrap size m Hm) as [Hloop _].
  rewrite Hloop in Hres.
  destruct (loop_rule a text wrap size
              (λ _ st, Forall line_ok (wrapped2DArray st) ∧ 10 ∉ word st)
              (λ r, Forall line_ok (result_lines r)))
    with (rest := toCharCodeArray text) (st := entry_state) as (r' & Hr & Hok).
  - intros c rest st s [Hlines Hword] _ Hrel.
    by apply (iter_rel_lines_ok a text wrap size _ _ _ Hrel).
  - intros st s [Hlines Hword] _ Hrel.
    pose proof (iter_rel_lines_ok a text wrap size _ _ _ Hrel Hlines Hword) as H.
    destruct s as [r0|st']; [done|]. intros _. apply H.
  - apply entry_state_wf.
  - split; [|apply not_elem_of_nil]. constructor; [apply line_ok_nil | constructor].
  - rewrite Hr in Hres. by injection Hres as <-.
Qed.

(** Every line after the first was opened by one of the two height checks:
    a result of [n] lines has [n = 1], or [(n - 1) * 16 * size < wrap[1]],
    or [n * charWidth * size < wrap[1]]. With cells at least 16 wide and a
    scale that is not negative, the top of the last line, at
    [(n - 1) * 16 * size], is therefore inside the box. *)
Theorem wrapText_lines_in_box (text : jsstring) (wrap : WrapBox) (size : Z)
    (m : Memo) (r : WrapResult) :
  memo_ok m → fst (wrapText a text wrap size m) = Some r →
  let n := length (result_lines r) in
  (n = 1%nat ∨
   Z.of_nat (n - 1) * 16 * size < wrap1 wrap ∨
   Z.of_nat n * charWidth a * size < wrap1 wrap) ∧
  (0 ≤ size → 16 ≤ charWidth a →
   n = 1%nat ∨ Z.of_nat (n - 1) * 16 * size < wrap1 wrap).
Proof.
  intros Hm Hres n. destruct (wrapText_memo a text wrap size m Hm) as [Hloop _].
  rewrite Hloop in Hres.
  destruct (loop_rule a text wrap size
              (λ _ st, line_opened a wrap size (S (line st)))
              (λ r, line_opened a wrap size (length (result_lines r))))
    with (rest := toCharCodeArray text) (st := entry_state) as (r' & Hr & Hopen).
  - intros c rest st s Hopen Hwf Hrel.
    by apply (iter_rel_line_opened a text wrap size _ _ _ Hrel).
  - intros st s Hopen Hwf Hrel.
    pose proof (iter_rel_line_opened a text wrap size _ _ _ Hrel Hwf Hopen) as H.
    destruct s as [r0|st']; [done|]. intros Hwf'. cbn. by rewrite Hwf'.
  - apply entry_state_wf.
  - by left.
  - rewrite Hr in Hres. injection Hres as <-. fold n in Hopen.
    split; [exact Hopen|]. intros Hsize Hcw.
    destruct Hopen as [?|[?|Hover]]; [by left | by right |].
    destruct n as [|n']; [right; cbn in *; nia|]. right.
    rewrite Nat.sub_succ, Nat.sub_0_r. nia.
Qed.

End WrapShape.

Lemma wrapText_lines_ok_witness :
  Forall line_ok [[97; 32]; []; [98; 32]; [99; 32]].
Proof.
  apply (wrapText_lines_ok setup_defaults [97; 10; 98; 32; 99]
           {| wrap0 := 9; wrap1 := 1000; wrap2 := 0 |} 1 memo_initial
           (Complete [[97; 32]; []; [98; 32]; [99; 32]] [] 16 64)).
  - intros t Ht. discriminate Ht.
  - vm_compute. reflexivity.
Defined.

Lemma wrapText_lines_in_box_witness :
  let n := length [[97; 32]; [98; 32]] in
  (n = 1%nat ∨ Z.of_nat (n - 1) * 16 * 1 < 32 ∨ Z.of_nat n * 16 * 1 < 32) ∧
  (0 ≤ 1 → 16 ≤ 16 → n = 1%nat ∨ Z.of_nat (n - 1) * 16 * 1 < 32).
Proof.
  apply (wrapText_lines_in_box setup_defaults [97; 10; 98; 10; 99]
           {| wrap0 := 1000; wrap1 := 32; wrap2 := 0 |} 1 memo_initial
           (Truncated [[97; 32]; [98; 32]] [99])).
  - intros t Ht. discriminate Ht.
  - vm_compute. reflexivity.
Defined.

(** ** Texts that need no wrapping, and the empty text *)

Section OneLine.

Context (a : Atlas) (text : jsstring) (wrap : WrapBox) (size : Z).
Context (Hsize : 0 ≤ size) (Hnarrow : 0 ≤ ANSICharWidth a) (Hwide : 0 ≤ charWidth a).

Lemma advance_nonneg (c : Z) : 0 ≤ advance a size c.
Proof.
  unfold advance, spaceWidth, getCharWidthFromCharCode.
  destruct (c =? 32); [lia|]. destruct (c <? 32 * 256); nia.
Qed.

Lemma run_width_nonneg (codes : list Z) : 0 ≤ run_width a size codes.
Proof.
  induction codes as [|c codes IH]; [done|].
  cbn. pose proof (advance_nonneg c). unfold run_width in IH. lia.
Qed.

Lemma place_word_single (l w : list Z) :
  place_word [l] 0 w = Some [l ++ w ++ [32]].
Proof. apply (place_word_last [] l w 0). reflexivity. Qed.

(** As long as the running width stays below the box width and no line feed
    comes, the loop keeps filling line 0. *)
Lemma loop_one_line (rest l wd : list Z) (w ww : Z) :
  10 ∉ rest → 0 ≤ ww →
  w + ww + run_width a size rest < wrap0 wrap →
  loop a text wrap size rest
    {| wrapped2DArray := [l]; width := w; line := 0; word := wd;
       wordWidth := ww; maxWidth := w |} =
  Some (Complete [l ++ wd ++ rest ++ [32]] []
                 (w + ww + run_width a size rest + spaceWidth size)
                 (1 * getHeight a size)).
Proof.
  revert l wd w ww. induction rest as [|c rest IH]; intros l wd w ww Hlf Hww Hfit.
  - cbn [loop]. rewrite iteration_delimiter by done. unfold delimiter.
    cbn [width wordWidth wrapped2DArray line word maxWidth is_linefeed].
    cbn in Hfit.
    destruct (Z.ltb_spec (w + ww) (wrap0 wrap)); [|lia].
    rewrite place_word_single.
    cbn [mbind option_bind app]. unfold store_maxWidth.
    cbn [width wordWidth wrapped2DArray line word maxWidth].
    unfold spaceWidth in *.
    change (run_width a size []) with 0. change (Z.of_nat (0 + 1)) with 1.
    destruct (Z.gtb_spec (w + ww + 8 * size) w); do 2 f_equal; lia.
  - apply not_elem_of_cons in Hlf as [Hc Hlf].
    pose proof (run_width_nonneg rest) as Hrest.
    change (run_width a size (c :: rest)) with
      (advance a size c + run_width a size rest) in *.
    cbn [loop]. destruct (Z.eqb_spec c 32) as [->|H32].
    + rewrite iteration_delimiter by done. unfold delimiter.
      cbn [width wordWidth wrapped2DArray line word maxWidth is_linefeed Z.eqb Pos.eqb].
      unfold advance in *. cbn [Z.eqb Pos.eqb] in *. unfold spaceWidth in *.
      destruct (Z.ltb_spec (w + ww) (wrap0 wrap)); [|lia].
      rewrite place_word_single.
      cbn [mbind option_bind app]. unfold store_maxWidth.
      cbn [width wordWidth wrapped2DArray line word maxWidth].
      replace (if w + ww + 8 * size >? w then w + ww + 8 * size else w)
        with (w + ww + 8 * size)
        by (destruct (Z.gtb_spec (w + ww + 8 * size) w); lia).
      rewrite IH by (try done; lia).
      do 2 f_equal; [|unfold spaceWidth; lia].
      by rewrite <- !app_assoc.
    + assert (is_word_char (Some c) = true) as Hword.
      { cbn. apply andb_true_intro. split; apply negb_true_iff, Z.eqb_neq; lia. }
      rewrite iteration_word by done. cbn [mbind option_bind].
      unfold store_maxWidth, word_char.
      cbn [width wordWidth wrapped2DArray line word maxWidth].
      destruct (Z.gtb_spec w w); [lia|].
      assert (advance a size c = getCharWidthFromCharCode a c * size) as Hadv.
      { unfold advance. by destruct (Z.eqb_spec c 32). }
      pose proof (advance_nonneg c).
      rewrite IH by (try done; lia).
      do 2 f_equal; [|lia]. by rewrite <- !app_assoc.
Qed.

End OneLine.

(** A text without line feed whose running width (glyph widths, with the
    fixed width for every space) is below the width of the box comes back
    as one line, the decoded text and a closing space, with nothing missing;
    the reported width is the running width plus one space, the reported
    height one line. *)
Theorem wrapText_one_line (a : Atlas) (text : jsstring) (wrap : WrapBox)
    (size : Z) (m : Memo) :
  memo_ok m → 0 ≤ size → 0 ≤ ANSICharWidth a → 0 ≤ charWidth a →
  10 ∉ toCharCodeArray text →
  run_width a size (toCharCodeArray text) < wrap0 wrap →
  fst (wrapText a text wrap size m) =
  Some (Complete [toCharCodeArray text ++ [32]] []
                 (run_width a size (toCharCodeArray text) + 8 * size)
                 (size * charHeight a)).
Proof.
  intros Hm Hsize Hnarrow Hwide Hlf Hfit.
  destruct (wrapText_memo a text wrap size m Hm) as [-> _].
  unfold entry_state.
  rewrite (loop_one_line a text wrap size Hsize Hnarrow Hwide) by (try done; lia).
  unfold getHeight, spaceWidth. do 2 f_equal; lia.
Qed.

Lemma wrapText_one_line_witness :
  fst (wrapText setup_defaults (units "hello world")
         {| wrap0 := 89; wrap1 := 0; wrap2 := 0 |} 1 memo_initial) =
  Some (Complete [toCharCodeArray (units "hello world") ++ [32]] []
                 (run_width setup_defaults 1 (toCharCodeArray (units "hello world")) + 8 * 1)
                 (1 * charHeight setup_defaults)).
Proof.
  apply wrapText_one_line.
  - intros t Ht. discriminate Ht.
  - lia.
  - cbn; lia.
  - cbn; lia.
  - change (toCharCodeArray (units "hello world"))
      with [104; 101; 108; 108; 111; 32; 119; 111; 114; 108; 100].
    rewrite !not_elem_of_cons. repeat split; try lia. apply not_elem_of_nil.
  - by vm_compute.
Defined.

(** The empty text. In a box that has some width it comes back as one line
    holding a single space; in a box without width the closing space does
    not fit, and it comes back cut short with nothing placed, or as an
    empty line followed by the space, as the height check decides. *)
Theorem wrapText_empty (a : Atlas) (wrap : WrapBox) (size : Z) (m : Memo) :
  memo_ok m → 0 ≤ size →
  (0 < wrap0 wrap →
     fst (wrapText a [] wrap size m) =
     Some (Complete [[32]] [] (8 * size) (size * charHeight a))) ∧
  (wrap0 wrap ≤ 0 → wrap1 wrap ≤ 2 * charWidth a * size →
     fst (wrapText a [] wrap size m) = Some (Truncated [[]] [])) ∧
  (wrap0 wrap ≤ 0 → 2 * charWidth a * size < wrap1 wrap →
     fst (wrapText a [] wrap size m) =
     Some (Complete [[]; [32]] [] (8 * size) (2 * (size * charHeight a)))).
Proof.
  intros Hm Hsize. destruct (wrapText_memo a [] wrap size m Hm) as [-> _].
  change (toCharCodeArray []) with (@nil Z).
  cbn [loop]. rewrite iteration_delimiter by done.
  unfold delimiter, entry_state, getHeight, spaceWidth.
  cbn [width wordWidth wrapped2DArray line word maxWidth is_linefeed].
  change (Z.of_nat 1 + 1) with 2.
  split; [|split].
  - intros Hw. destruct (Z.ltb_spec (0 + 0) (wrap0 wrap)); [|lia].
    rewrite place_word_single. cbn [mbind option_bind app]. unfold store_maxWidth.
    cbn [width wordWidth wrapped2DArray line word maxWidth].
    change (Z.of_nat (0 + 1)) with 1.
    destruct (Z.gtb_spec (0 + 0 + 8 * size) 0); do 2 f_equal; lia.
  - intros Hw Hh. destruct (Z.ltb_spec (0 + 0) (wrap0 wrap)); [lia|].
    destruct (Z.geb_spec (2 * charWidth a * size) (wrap1 wrap)); [|lia].
    cbn [mbind option_bind]. by rewrite missingText_drop.
  - intros Hw Hh. destruct (Z.ltb_spec (0 + 0) (wrap0 wrap)); [lia|].
    destruct (Z.geb_spec (2 * charWidth a * size) (wrap1 wrap)); [lia|].
    rewrite (advance_line_last [[]] 1) by done. cbn [mbind option_bind].
    rewrite (place_word_last [[]] [] [] 1) by done.
    cbn [mbind option_bind app]. unfold store_maxWidth.
    cbn [width wordWidth wrapped2DArray line word maxWidth].
    change (Z.of_nat (1 + 1)) with 2.
    destruct (Z.gtb_spec (0 + 8 * size) 0); do 2 f_equal; lia.
Qed.

Lemma wrapText_empty_witness :
  fst (wrapText setup_defaults [] {| wrap0 := 100; wrap1 := 0; wrap2 := 0 |} 2
                memo_initial) =
    Some (Complete [[32]] [] (8 * 2) (2 * charHeight setup_defaults)) ∧
  fst (wrapText setup_defaults [] {| wrap0 := 0; wrap1 := 64; wrap2 := 0 |} 2
                memo_initial) = Some (Truncated [[]] []) ∧
  fst (wrapText setup_defaults [] {| wrap0 := 0; wrap1 := 65; wrap2 := 0 |} 2
                memo_initial) =
    Some (Complete [[]; [32]] [] (8 * 2) (2 * (2 * charHeight setup_defaults))).
Proof.
  split; [|split].
  - destruct (wrapText_empty setup_defaults
                {| wrap0 := 100; wrap1 := 0; wrap2 := 0 |} 2 memo_initial)
      as (H & _ & _); [intros t Ht; discriminate Ht | lia |].
    apply H. cbn; lia.
  - destruct (wrapText_empty setup_defaults
                {| wrap0 := 0; wrap1 := 64; wrap2 := 0 |} 2 memo_initial)
      as (_ & H & _); [intros t Ht; discriminate Ht | lia |].
    apply H; cbn; lia.
  - destruct (wrapText_empty setup_defaults
                {| wrap0 := 0; wrap1 := 65; wrap2 := 0 |} 2 memo_initial)
      as (_ & _ & H); [intros t Ht; discriminate Ht | lia |].
    apply H; cbn; lia.
Defined.

(** ** Progress of a caller that pages through the text *)

(** For a text without surrogate pairs, an early exit returns the whole text
    as [missing] exactly when it placed nothing; otherwise [missing] is
    strictly shorter than the text, so calling again on [missing] makes
    progress. *)
Theorem wrapText_progress (a : Atlas) (text : jsstring) (wrap : WrapBox)
    (size : Z) (m : Memo) (lines : list (list Z)) (missing : jsstring) :
  wf_string text → no_surrogate_pair text = true → memo_ok m →
  fst (wrapText a text wrap size m) = Some (Truncated lines missing) →
  (missing = text ↔ concat lines = []) ∧
  (concat lines ≠ [] → (length missing < length text)%nat).
Proof.
  intros Htext Hbmp Hm Hres.
  destruct (wrapText_memo a text wrap size m Hm) as [Hloop _].
  rewrite Hloop, toCharCodeArray_bmp in Hres by done.
  destruct (loop_covers a text wrap size Htext text entry_state entry_state_wf)
    as (r & Hr & Hcov).
  { exists []. by rewrite Forall_nil. }
  rewrite Hr in Hres. injection Hres as ->.
  destruct Hcov as (n & Hn & Hdone & ->).
  assert (length (concat lines) = n) as Hlen.
  { apply (f_equal length) in Hdone. unfold fromCharCode in Hdone.
    rewrite !length_map, length_take in Hdone. lia. }
  assert (concat lines = [] ↔ n = 0%nat) as Hnil.
  { rewrite <- Hlen. split; [by intros -> | apply nil_length_inv]. }
  split.
  - rewrite Hnil. split.
    + intros Hdrop. apply (f_equal length) in Hdrop. rewrite length_drop in Hdrop. lia.
    + by intros ->.
  - intros Hne. rewrite length_drop. destruct n; [by destruct Hne; apply Hnil | lia].
Qed.

Lemma wrapText_progress_witness :
  let text : jsstring := [97; 10; 98; 10; 99] in
  let missing : jsstring := [99] in
  (missing = text ↔ concat [[97; 32]; [98; 32]] = []) ∧
  (concat [[97; 32]; [98; 32]] ≠ [] → (length missing < length text)%nat).
Proof.
  intros text missing. apply (wrapText_progress setup_defaults [97; 10; 98; 10; 99]
           {| wrap0 := 1000; wrap1 := 32; wrap2 := 0 |} 1 memo_initial).
  - unfold wf_string. repeat constructor; lia.
  - reflexivity.
  - intros t Ht. discriminate Ht.
  - vm_compute. reflexivity.
Defined.

(** ** The box of unwrapped text *)

Section Unwrapped.

Lemma split_lines_cons (s cur : jsstring) :
  ∃ l ls, split_lines s cur = (cur ++ l) :: ls ∧
          split_lines s [] = l :: ls.
Proof.
  revert cur. induction s as [|u s IH]; intros cur.
  - exists [], []. by rewrite app_nil_r.
  - cbn [split_lines]. destruct ((u =? 13) || (u =? 10)).
    + exists [], (split_lines s []). by rewrite app_nil_r.
    + destruct (IH (cur ++ [u])) as (l & ls & -> & Hnil).
      destruct (IH ([] ++ [u])) as (l' & ls' & -> & Hnil').
      rewrite Hnil in Hnil'. injection Hnil' as <- <-.
      exists (u :: l), ls. by rewrite <- app_assoc.
Qed.

Lemma split_lines_length (s cur : jsstring) :
  length (split_lines s cur) = S (separators s).
Proof.
  revert cur. induction s as [|u s IH]; intros cur; [done|].
  cbn [split_lines separators]. unfold is_separator.
  destruct ((u =? 13) || (u =? 10)).
  - cbn [length]. by rewrite IH.
  - apply IH.
Qed.

Lemma split_lines_clean (s cur : jsstring) :
  Forall (λ u, is_separator u = false) cur →
  Forall (Forall (λ u, is_separator u = false)) (split_lines s cur).
Proof.
  revert cur. induction s as [|u s IH]; intros cur Hcur.
  - by constructor.
  - cbn [split_lines]. destruct ((u =? 13) || (u =? 10)) eqn:Hu.
    + constructor; [done|]. by apply IH.
    + apply IH, Forall_app. split; [done|]. by constructor.
Qed.

Lemma join_lf_cons (l : jsstring) (l' : jsstring) (ls : list jsstring) :
  join_lf (l :: l' :: ls) = l ++ [10] ++ join_lf (l' :: ls).
Proof. reflexivity. Qed.

Lemma split_lines_join (s cur : jsstring) :
  13 ∉ s → join_lf (split_lines s cur) = cur ++ s.
Proof.
  revert cur. induction s as [|u s IH]; intros cur Hcr.
  - by rewrite app_nil_r.
  - apply not_elem_of_cons in Hcr as [Hu Hcr]. cbn [split_lines].
    destruct ((u =? 13) || (u =? 10)) eqn:Hsep.
    + assert (u = 10) as -> by lia.
      destruct (split_lines_cons s []) as (l & ls & _ & Hsplit).
      pose proof (IH [] Hcr) as Hjoin. rewrite Hsplit in Hjoin.
      rewrite Hsplit, join_lf_cons. f_equal. cbn [app]. f_equal. exact Hjoin.
    + rewrite IH by done. by rewrite <- app_assoc.
Qed.

(** Splitting a text into its lines: there is one line more than the text
    has carriage returns and line feeds, no line holds either, and for a
    text without carriage return the lines joined by line feeds are the
    text again. *)
Theorem split_lines_spec (text : jsstring) :
  length (split_lines text []) = S (separators text) ∧
  Forall (Forall (λ u, is_separator u = false)) (split_lines text []) ∧
  (13 ∉ text → join_lf (split_lines text []) = text).
Proof.
  split; [apply split_lines_length|]. split; [by apply split_lines_clean|].
  intros Hcr. by rewrite split_lines_join.
Qed.

Context (a : Atlas).

Lemma longest_spec (lines : list jsstring) (m0 : Z) :
  let longest :=
    fold_left (λ m l, if Z.of_nat (length l) >? m then Z.of_nat (length l) else m)
              lines m0 in
  m0 ≤ longest ∧
  Forall (λ l, Z.of_nat (length l) ≤ longest) lines ∧
  (longest = m0 ∨ ∃ l, l ∈ lines ∧ longest = Z.of_nat (length l)).
Proof.
  revert m0. induction lines as [|l lines IH]; intros m0; cbn zeta.
  - split; [done|]. split; [constructor | by left].
  - cbn [fold_left].
    set (m1 := if Z.of_nat (length l) >? m0 then Z.of_nat (length l) else m0).
    destruct (IH m1) as (Hge & Hall & Hsome). cbn zeta in *.
    assert (m0 ≤ m1 ∧ Z.of_nat (length l) ≤ m1 ∧
            (m1 = m0 ∨ m1 = Z.of_nat (length l))) as (H0 & Hl & Hm1).
    { subst m1. destruct (Z.gtb_spec (Z.of_nat (length l)) m0); lia. }
    split; [lia|]. split; [constructor; [lia | done]|].
    destruct Hsome as [->|(l' & Hin & ->)].
    + destruct Hm1 as [->| ->]; [by left|]. right. exists l. split; [left | done].
    + right. exists l'. split; [by right | done].
Qed.

(** The box computed for unwrapped text: as many rows of [size * charWidth]
    as the text has lines, and a width that holds the longest line at
    [size * charWidth] per code unit; both are measured from the origin, so
    the position is added. The pitch is [charWidth] in both directions, and
    the length of a line counts UTF-16 units. *)
Theorem getWrapFromText_spec (text : jsstring) (size : Z) (pos : Z * Z) :
  0 ≤ size * charWidth a →
  let box := getWrapFromText a text size pos in
  wrap1 box = Z.of_nat (S (separators text)) * size * charWidth a + snd pos ∧
  wrap2 box = 0 ∧
  Forall (λ l, Z.of_nat (length l) * size * charWidth a + fst pos ≤ wrap0 box)
         (split_lines text []) ∧
  ∃ l, l ∈ split_lines text [] ∧
       wrap0 box = Z.of_nat (length l) * size * charWidth a + fst pos.
Proof.
  intros Hpitch box. subst box. unfold getWrapFromText. cbn [wrap0 wrap1 wrap2].
  rewrite split_lines_length. split; [done|]. split; [done|].
  destruct (longest_spec (split_lines text []) 0) as (Hge & Hall & Hsome).
  cbn zeta in *.
  set (longest :=
         fold_left (λ m l, if Z.of_nat (length l) >? m then Z.of_nat (length l) else m)
                   (split_lines text []) 0) in *.
  split.
  - eapply Forall_impl; [exact Hall|]. intros l Hl. cbn in Hl. nia.
  - destruct Hsome as [Hzero|(l & Hin & Hl)].
    + destruct (split_lines_cons text []) as (l & ls & _ & Hsplit).
      exists l. rewrite Hsplit in *. split; [left|].
      apply Forall_inv in Hall. cbn in Hall.
      assert (Z.of_nat (length l) = longest) as -> by lia. done.
    + exists l. split; [done|]. by rewrite Hl.
Qed.

End Unwrapped.

Lemma getWrapFromText_spec_witness :
  let box := getWrapFromText setup_defaults [97; 98; 10; 99] 2 (3, 5) in
  wrap1 box = Z.of_nat (S (separators [97; 98; 10; 99])) * 2 * 16 + 5 ∧
  wrap2 box = 0 ∧
  Forall (λ l, Z.of_nat (length l) * 2 * 16 + 3 ≤ wrap0 box)
         (split_lines [97; 98; 10; 99] []) ∧
  ∃ l, l ∈ split_lines [97; 98; 10; 99] [] ∧
       wrap0 box = Z.of_nat (length l) * 2 * 16 + 3.
Proof.
  apply (getWrapFromText_spec setup_defaults [97; 98; 10; 99] 2 (3, 5)). cbn; lia.
Defined.

(** ** Glyphs on the line buffer *)

Section Glyphs.

Context (a : Atlas).

(** The glyph loop, command by command: the glyph of the [i]-th code is
    copied from its cell to the pen position, which is the width of the
    codes before it. *)
Lemma glyph_loop_lookup (codes : list Z) (bx : Canvas) (pen total : Z) :
  ∃ glyphs,
    fold_left (glyph_step a) codes (bx, pen, total) =
      (mkCanvas (canvas_width bx) (canvas_height bx) (canvas_smoothing bx)
                (canvas_ops bx ++ glyphs),
       pen + line_width a codes, total + line_width a codes) ∧
    length glyphs = length codes ∧
    ∀ (i : nat) c, codes !! i = Some c →
      glyphs !! i =
        Some (DrawGlyph (fst (getCharPosition a c)) (snd (getCharPosition a c))
                        (charWidth a) (charHeight a)
                        (pen + line_width a (take i codes)) 0
                        (charWidth a) (charHeight a)).
Proof.
  revert bx pen total. induction codes as [|c0 codes IH]; intros bx pen total.
  - exists []. split; [|done]. cbn. rewrite app_nil_r, !Z.add_0_r. by destruct bx.
  - cbn [fold_left]. rewrite glyph_step_eq.
    destruct (IH (draw bx (DrawGlyph (fst (getCharPosition a c0))
                                 (snd (getCharPosition a c0))
                                 (charWidth a) (charHeight a) pen 0
                                 (charWidth a) (charHeight a)))
                 (pen + getCharWidthFromCharCode a c0)
                 (total + getCharWidthFromCharCode a c0))
      as (glyphs & -> & Hlen & Hlook).
    eexists (_ :: glyphs). split; [|split].
    + rewrite line_width_cons, !Z.add_assoc. destruct bx. unfold draw.
      cbn [canvas_width canvas_height canvas_smoothing canvas_ops].
      by rewrite <- app_assoc.
    + cbn. by rewrite Hlen.
    + intros [|i] c Hc.
      * injection Hc as ->. cbn [take]. change (line_width a []) with 0.
        by rewrite Z.add_0_r.
      * change (glyphs !! i = Some (DrawGlyph (fst (getCharPosition a c))
                  (snd (getCharPosition a c)) (charWidth a) (charHeight a)
                  (pen + line_width a (c0 :: take i codes)) 0
                  (charWidth a) (charHeight a))).
        rewrite line_width_cons, Z.add_assoc. by apply Hlook.
Qed.

(** Every code of a line gets one glyph copy on the line buffer, in order:
    a whole cell, from the cell of the code, to the pen position [x], the
    width of the codes before it. With a narrow width between 0 and the
    cell width, the copied cell lies inside the buffer. *)
Theorem drawTextCanvas_glyphs (utf8Array : list Z) (color : jsval)
    (i : nat) (c : Z) :
  0 ≤ ANSICharWidth a ≤ charWidth a →
  utf8Array !! i = Some c →
  let buffer := fst (tinted_buffer a utf8Array color) in
  let x := line_width a (take i utf8Array) in
  canvas_ops buffer !! i =
    Some (DrawGlyph (fst (getCharPosition a c)) (snd (getCharPosition a c))
                    (charWidth a) (charHeight a) x 0 (charWidth a) (charHeight a)) ∧
  0 ≤ x ∧ x + charWidth a ≤ canvas_width buffer ∧
  canvas_height buffer = charHeight a.
Proof.
  intros Hw Hc buffer x. subst buffer. unfold tinted_buffer, draw_glyphs.
  destruct (glyph_loop_lookup utf8Array
              (createBufferCanvas (charWidth a * Z.of_nat (length utf8Array))
                                  (charHeight a)) 0 0)
    as (glyphs & -> & Hlen & Hlook).
  assert (tint_guard color = true) as -> by (by destruct color).
  cbn [fst canvas_ops canvas_width canvas_height draw createBufferCanvas app].
  pose proof (lookup_lt_Some _ _ _ Hc) as Hi.
  split.
  - rewrite <- !app_assoc. rewrite lookup_app_l by lia.
    rewrite (Hlook i c Hc). by rewrite Z.add_0_l.
  - pose proof (line_width_bounds a (take i utf8Array) Hw) as Hx.
    rewrite length_take, Nat.min_l in Hx by lia. fold x in Hx.
    split; [nia|]. split; [nia | done].
Qed.

(** The width [drawTextCanvas] returns is the width of the line at scale 1,
    whatever the scale it draws at: for the codes of a text, it is
    [getTextWidth(text)], not [getTextWidth(text, size)]. *)
Theorem drawTextCanvas_width (ctx : Canvas) (text : jsstring) (pos : Z * Z)
    (color : jsval) (size : option Z) :
  snd (drawTextCanvas a ctx (toCharCodeArray text) pos color size) =
  getTextWidth a text None.
Proof.
  unfold drawTextCanvas. cbn [snd].
  destruct (tinted_buffer_spec a (toCharCodeArray text) color) as (glyphs & -> & _).
  rewrite getTextWidth_line_width. cbn. lia.
Qed.

Lemma draw_lines_size (pos : Z * Z) (color : jsval) (size : Z) (shadow : jsval)
    (lines : list (list Z)) (i : nat) (ctx : Canvas) :
  canvas_width (draw_lines a ctx pos color size shadow i lines) = canvas_width ctx ∧
  canvas_height (draw_lines a ctx pos color size shadow i lines) = canvas_height ctx.
Proof.
  revert i ctx. induction lines as [|l lines IH]; intros i ctx; [done|].
  cbn [draw_lines]. destruct (negb (truthy shadow)).
  - destruct (IH (S i) (fst (drawTextCanvas a ctx l
                 (fst pos, snd pos + Z.of_nat i * 16 * size) color (Some size))))
      as [-> ->]. by destruct ctx.
  - destruct (IH (S i) (draw ctx
                 (DrawCanvas (fst (drawTextShadow a l color (Some size) shadow))
                             (fst pos) (snd pos + Z.of_nat i * getHeight a size))))
      as [-> ->]. by destruct ctx.
Qed.

(** [drawText] leaves the memo naming the text it drew and returns the
    [missing] of [wrapText] on the box [drawText_box]. It keeps the size of
    the canvas unless [tightenCanvas] is truthy; then, when the text was
    wrapped to its end, the canvas gets the width and height that
    [wrapText] reported for that box, each enlarged by [2 * size] when
    there is a shadow. *)
Theorem drawText_canvas_size (m : Memo) (ctx : Canvas) (text : jsstring)
    (pos : Z * Z) (color : jsval) (size : option Z) (shadow : jsval)
    (wrap : WrapArg) (tightenCanvas : jsval)
    (missing : jsstring) (m' : Memo) (ctx' : Canvas) :
  drawText a m ctx text pos color size shadow wrap tightenCanvas
    = Some (missing, m', ctx') →
  let margin := if truthy shadow then default 1 size * 2 else 0 in
  textDrawn m' = Some text ∧
  (truthy tightenCanvas = false →
     canvas_width ctx' = canvas_width ctx ∧ canvas_height ctx' = canvas_height ctx) ∧
  ∃ r,
    wrapText a text (drawText_box a ctx text pos size wrap) (default 1 size) m
      = (Some r, m') ∧
    missing = result_missing r ∧
    (truthy tightenCanvas = true →
     ∀ lines missing' w h, r = Complete lines missing' w h →
            canvas_width ctx' = w + margin ∧ canvas_height ctx' = h + margin).
Proof.
  intros Hdraw margin. unfold drawText in Hdraw.
  fold (drawText_box a ctx text pos size wrap) in Hdraw.
  set (s := default 1 size) in *.
  set (sh := if typeof_is_undefined shadow || is_null shadow
             then JBool false else shadow) in *.
  set (box := drawText_box a ctx text pos size wrap) in *.
  destruct (wrapText a text box s m) as [[r|] m1] eqn:Hwrap; [|done].
  cbn [mbind option_bind] in Hdraw. injection Hdraw as <- <- <-.
  assert (truthy sh = truthy shadow) as Hsh by apply truthy_defaulted.
  rewrite (truthy_defaulted tightenCanvas).
  split; [|split].
  - apply (f_equal snd) in Hwrap. cbn [snd] in Hwrap. rewrite <- Hwrap.
    unfold wrapText. cbn [snd].
    destruct (decide (textDrawn m ≠ Some text)) as [|Heq]; [done|].
    by apply dec_stable in Heq.
  - intros ->. apply draw_lines_size.
  - exists r. split; [done|]. split; [done|]. intros -> lines missing' w h ->.
    destruct (draw_lines_size pos color s sh lines 0
                (tighten ctx s sh (Some w) (Some h)))
      as [Hw Hh].
    cbn [result_minWidth result_minHeight result_lines] in *. rewrite Hw, Hh.
    unfold tighten, margin. rewrite Hsh.
    destruct (truthy shadow), ctx; cbn; unfold s; lia.
Qed.

End Glyphs.

Lemma drawTextCanvas_glyphs_witness :
  let buffer := fst (tinted_buffer setup_defaults [65; 28450; 66] JUndefined) in
  let x := line_width setup_defaults (take 2 [65; 28450; 66]) in
  canvas_ops buffer !! 2%nat =
    Some (DrawGlyph (fst (getCharPosition setup_defaults 66))
                    (snd (getCharPosition setup_defaults 66)) 16 16 x 0 16 16) ∧
  0 ≤ x ∧ x + 16 ≤ canvas_width buffer ∧ canvas_height buffer = 16.
Proof.
  apply (drawTextCanvas_glyphs setup_defaults [65; 28450; 66] JUndefined 2 66).
  - cbn; lia.
  - reflexivity.
Defined.

Lemma drawText_canvas_size_witness :
  ∃ m' ctx',
    drawText setup_defaults memo_initial (mkCanvas 300 150 true []) (units "hi") (0, 0)
             (JStr "black") (Some 2) (JStr "red") WrapAbsent (JBool true)
      = Some ([], m', ctx') ∧
    textDrawn m' = Some (units "hi") ∧
    canvas_width ctx' = 48 + 2 * 2 ∧ canvas_height ctx' = 32 + 2 * 2.
Proof.
  destruct (drawText setup_defaults memo_initial (mkCanvas 300 150 true [])
              (units "hi") (0, 0) (JStr "black") (Some 2) (JStr "red")
              WrapAbsent (JBool true)) as [[[missing m'] ctx']|] eqn:Hdraw;
    [|by vm_compute in Hdraw].
  assert (missing = []) as ->.
  { revert Hdraw. vm_compute. intros Hdraw. by injection Hdraw as <- _ _. }
  exists m', ctx'. split; [reflexivity|].
  destruct (drawText_canvas_size setup_defaults memo_initial (mkCanvas 300 150 true [])
              (units "hi") (0, 0) (JStr "black") (Some 2) (JStr "red")
              WrapAbsent (JBool true) [] m' ctx' Hdraw)
    as (Hmemo & _ & r & Hwrap & _ & Hsize).
  split; [exact Hmemo|].
  apply (Hsize eq_refl [[104; 105; 32]] [] 48 32).
  apply (f_equal fst) in Hwrap. revert Hwrap. vm_compute.
  intros Hwrap. by injection Hwrap as <-.
Defined.

(** ** Decoded codes are code units *)

(** Every decoded code is a 16-bit value, and a text never decodes to more
    codes than it has code units. *)
Theorem toCharCodeArray_units (str : jsstring) :
  wf_string str →
  wf_string (toCharCodeArray str) ∧
  (length (toCharCodeArray str) ≤ length str)%nat.
Proof.
  intros Hstr. split; [|apply toCharCodeArray_length_le].
  unfold wf_string in *.
  assert (Forall (λ u, 0 ≤ u < 65536) (toCharCodeArray str) ∧
          ∀ u, 0 ≤ u < 65536 →
               Forall (λ u, 0 ≤ u < 65536) (toCharCodeArray (u :: str))) as [H _];
    [|exact H].
  unfold toCharCodeArray.
  induction Hstr as [|v rest Hv Hrest [IHrest IHcons]].
  - split; [constructor|]. intros u Hu. cbn. constructor; [done | constructor].
  - split; [by apply IHcons|]. intros u Hu.
    change (array_from (u :: v :: rest)) with
      (if is_high_surrogate u && is_low_surrogate v
       then Two u v :: array_from rest else One u :: array_from (v :: rest)).
    destruct (is_high_surrogate u && is_low_surrogate v); cbn [map charCodeAt0].
    + by constructor.
    + constructor; [done | by apply IHcons].
Qed.

Lemma toCharCodeArray_units_witness :
  let str : jsstring := [97; 55357; 56832] in
  wf_string (toCharCodeArray str) ∧
  (length (toCharCodeArray str) ≤ length str)%nat.
Proof.
  intros str. apply toCharCodeArray_units. unfold wf_string. repeat constructor; lia.
Defined.

(** ** What the layout depends on *)

Section Layout.

Context (a1 a2 : Atlas).
Context (Hwide : charWidth a1 = charWidth a2).
Context (Hnarrow : ANSICharWidth a1 = ANSICharWidth a2).

Lemma iteration_widths (text : jsstring) (wrap : WrapBox) (size : Z)
    (c : option Z) (st : WrapState) :
  iteration a1 text wrap size c st = iteration a2 text wrap size c st.
Proof.
  unfold iteration, delimiter, word_char, getCharWidthFromCharCode.
  by rewrite Hwide, Hnarrow.
Qed.

Lemma loop_widths (text : jsstring) (wrap : WrapBox) (size : Z)
    (rest : list Z) (st : WrapState) :
  result_lines <$> loop a1 text wrap size rest st =
    result_lines <$> loop a2 text wrap size rest st ∧
  result_missing <$> loop a1 text wrap size rest st =
    result_missing <$> loop a2 text wrap size rest st ∧
  result_minWidth <$> loop a1 text wrap size rest st =
    result_minWidth <$> loop a2 text wrap size rest st.
Proof.
  revert st. induction rest as [|c rest IH]; intros st; cbn [loop];
    rewrite iteration_widths;
    destruct (iteration a2 text wrap size _ st) as [[r|st']|]; cbn; done.
Qed.

End Layout.

(** The lines, the missing text and the reported width of [wrapText] depend
    on the atlas through its two glyph widths only: cell height, cells per
    row and glyph table play no part in the layout. *)
Theorem wrapText_layout_widths_only (a1 a2 : Atlas) (text : jsstring)
    (wrap : WrapBox) (size : Z) (m : Memo) :
  charWidth a1 = charWidth a2 → ANSICharWidth a1 = ANSICharWidth a2 →
  result_lines <$> fst (wrapText a1 text wrap size m) =
    result_lines <$> fst (wrapText a2 text wrap size m) ∧
  result_missing <$> fst (wrapText a1 text wrap size m) =
    result_missing <$> fst (wrapText a2 text wrap size m) ∧
  result_minWidth <$> fst (wrapText a1 text wrap size m) =
    result_minWidth <$> fst (wrapText a2 text wrap size m) ∧
  snd (wrapText a1 text wrap size m) = snd (wrapText a2 text wrap size m).
Proof.
  intros Hwide Hnarrow. unfold wrapText. cbn [fst snd].
  rewrite loop_entry_state. cbn [mbind option_bind].
  pose proof (loop_widths a1 a2 Hwide Hnarrow text wrap size) as H.
  destruct (decide (textDrawn m ≠ Some text));
    [destruct (H (toCharCodeArray text) entry_state) as (? & ? & ?)
    |destruct (H (textUTF8Array m) entry_state) as (? & ? & ?)]; done.
Qed.

Lemma wrapText_layout_widths_only_witness :
  result_lines <$> fst (wrapText setup_defaults (units "a b")
                          {| wrap0 := 20; wrap1 := 100; wrap2 := 0 |} 1 memo_initial) =
    result_lines <$> fst (wrapText atlas_abc (units "a b")
                            {| wrap0 := 20; wrap1 := 100; wrap2 := 0 |} 1 memo_initial) ∧
  result_missing <$> fst (wrapText setup_defaults (units "a b")
                            {| wrap0 := 20; wrap1 := 100; wrap2 := 0 |} 1 memo_initial) =
    result_missing <$> fst (wrapText atlas_abc (units "a b")
                              {| wrap0 := 20; wrap1 := 100; wrap2 := 0 |} 1 memo_initial) ∧
  result_minWidth <$> fst (wrapText setup_defaults (units "a b")
                             {| wrap0 := 20; wrap1 := 100; wrap2 := 0 |} 1 memo_initial) =
    result_minWidth <$> fst (wrapText atlas_abc (units "a b")
                               {| wrap0 := 20; wrap1 := 100; wrap2 := 0 |} 1 memo_initial) ∧
  snd (wrapText setup_defaults (units "a b")
         {| wrap0 := 20; wrap1 := 100; wrap2 := 0 |} 1 memo_initial) =
    snd (wrapText atlas_abc (units "a b")
           {| wrap0 := 20; wrap1 := 100; wrap2 := 0 |} 1 memo_initial).
Proof. apply wrapText_layout_widths_only; reflexivity. Defined.

Lemma split_lines_spec_witness :
  join_lf (split_lines [97; 10; 10; 98] []) = [97; 10; 10; 98].
Proof.
  destruct (split_lines_spec [97; 10; 10; 98]) as (_ & _ & Hjoin).
  apply Hjoin. rewrite !not_elem_of_cons.
  repeat split; try lia. apply not_elem_of_nil.
Defined.
